(** * QUBO construction for HP lattice protein folding

    A shallow embedding of [main.py]: the checkerboard variable table, the
    four loops that accumulate the QUBO dictionary [Q], and the decoder that
    reads bead positions back from a sample.  Python dictionaries are modelled
    as [gmap]s, Python integers as [Z] (coefficients) and [nat] (loop indices,
    which only ever come from [range]), and the exceptions the script can
    raise ([KeyError], [IndexError], [ValueError]) by an error monad.  The
    sequence is a [string] read one character per residue. *)

From Stdlib Require Import ZArith Lia ZifyNat Ascii String.
From Stdlib Require Import DecimalString DecimalNat.
From stdpp Require Import base gmap list strings fin_maps.

Set Warnings "-clear-no-such-hyp".

Local Open Scope Z_scope.
Local Open Scope string_scope.
Local Open Scope nat_scope.

(** ** Exceptions *)

Inductive exn := KeyError | IndexError | ValueError.

Inductive result (A : Type) : Type :=
  | Ok (a : A)
  | Raise (e : exn).
Arguments Ok {A} a.
Arguments Raise {A} e.

Global Instance result_ret : MRet result := @Ok.
Global Instance result_bind : MBind result := λ A B f m,
  match m with
  | Ok a => f a
  | Raise e => Raise e
  end.

(** [for x in l: body], threading the state the body mutates. *)
Fixpoint for_ {A S : Type} (l : list A) (body : A → S → result S) (s : S)
    : result S :=
  match l with
  | [] => Ok s
  | x :: l' => s' ← body x s; for_ l' body s'
  end.

(** [range(a, b)] *)
Definition range (a b : nat) : list nat := seq a (b - a).

(** [d[key]] on a dictionary *)
Definition getitem `{Countable K} {V} (d : gmap K V) (key : K) : result V :=
  match d !! key with
  | Some v => Ok v
  | None => Raise KeyError
  end.

(** [s[n]] on a string *)
Definition str_index (s : string) (n : nat) : result ascii :=
  match String.get n s with
  | Some c => Ok c
  | None => Raise IndexError
  end.

(** [l[n]] on a list *)
Definition list_index {A} (l : list A) (n : nat) : result A :=
  match l !! n with
  | Some x => Ok x
  | None => Raise IndexError
  end.

(** A dictionary comprehension: later bindings of a key replace earlier ones. *)
Definition dict_of_list `{Countable K} {V} (l : list (K * V)) : gmap K V :=
  foldl (λ d kv, <[kv.1 := kv.2]> d) ∅ l.

(** ** Variable names *)

(** [f"{n}"] for a non-negative integer. *)
Definition str_of_nat (n : nat) : string :=
  NilEmpty.string_of_uint (Nat.to_uint n).

(** [f"x_{i}_{j}_{k}"] *)
Definition var_name (i j k : nat) : string :=
  "x_" +:+ str_of_nat i +:+ "_" +:+ str_of_nat j +:+ "_" +:+ str_of_nat k.

(** ** The QUBO builder *)

Abbreviation triple := (nat * nat * nat)%type.
Abbreviation qkey := (string * string)%type.

(** [interaction(h1, h2)] *)
Definition interaction (h1 h2 : ascii) : Z :=
  if decide (h1 = "H"%char ∧ h2 = "H"%char) then (-1)%Z else 0%Z.

(** [(j + k) % 2 == i % 2] *)
Definition parity_ok (i j k : nat) : Prop := (j + k) mod 2 = i mod 2.

Global Instance parity_ok_dec i j k : Decision (parity_ok i j k).
Proof. unfold parity_ok. apply _. Defined.

(** [abs(j - jp) + abs(k - kp)] *)
Definition manhattan (j k jp kp : nat) : Z :=
  (Z.abs (Z.of_nat j - Z.of_nat jp) + Z.abs (Z.of_nat k - Z.of_nat kp))%Z.

(** [Q[key] = Q.get(key, 0) + c] *)
Definition accum (Q : gmap qkey Z) (w : qkey * Z) : gmap qkey Z :=
  <[w.1 := (default 0 (Q !! w.1) + w.2)%Z]> Q.

(** [if pair in Q: Q[pair] += c else: Q[pair] = c] *)
Definition add_or_set (Q : gmap qkey Z) (pair : qkey) (c : Z) : gmap qkey Z :=
  match Q !! pair with
  | Some v => <[pair := (v + c)%Z]> Q
  | None => <[pair := c]> Q
  end.

Inductive term_id := T1 | T2 | T3 | T4.

Section Builder.
Variable sequence : string.

Definition N : nat := String.length sequence.
Definition L : nat := N / 2 + 1.

(** The table [variables], keyed by [(i, j, k)]. *)
Definition variables : gmap triple string :=
  dict_of_list
    (i ← range 0 N; j ← range 0 L; k ← range 0 L;
     if decide (parity_ok i j k) then [((i, j, k), var_name i j k)] else []).

(** Term 1: the HP energy loop. *)
Definition term1 (Q : gmap qkey Z) : result (gmap qkey Z) :=
  for_ (range 0 N) (λ f Q,
    for_ (range (f + 2) N) (λ fp Q,
      h1 ← str_index sequence f;
      h2 ← str_index sequence fp;
      if decide (interaction h1 h2 ≠ 0%Z) then
        for_ (range 0 L) (λ j Q,
          for_ (range 0 L) (λ k Q,
            for_ (range 0 L) (λ jp Q,
              for_ (range 0 L) (λ kp Q,
                if decide (manhattan j k jp kp = 1%Z) then
                  if decide (parity_ok f j k ∧ parity_ok fp jp kp) then
                    a ← getitem variables (f, j, k);
                    b ← getitem variables (fp, jp, kp);
                    h1 ← str_index sequence f;
                    h2 ← str_index sequence fp;
                    Ok (add_or_set Q (a, b) (interaction h1 h2))
                  else Ok Q
                else Ok Q) Q) Q) Q) Q
      else Ok Q) Q) Q.

(** Term 2: each bead at exactly one location. *)
Definition term2 (Q : gmap qkey Z) : result (gmap qkey Z) :=
  for_ (range 0 N) (λ i Q,
    for_ (range 0 L) (λ j Q,
      for_ (range 0 L) (λ k Q,
        if decide (parity_ok i j k) then
          one_site ← mapM (λ p : nat * nat, getitem variables (i, p.1, p.2))
            (jp ← range 0 L; kp ← range 0 L;
             if decide (parity_ok i jp kp ∧ (jp, kp) ≠ (j, k))
             then [(jp, kp)] else []);
          for_ one_site (λ var Q,
            a ← getitem variables (i, j, k);
            Ok (accum Q ((a, var), 2%Z))) Q
        else Ok Q) Q) Q) Q.

(** Term 3: self-avoidance. *)
Definition term3 (Q : gmap qkey Z) : result (gmap qkey Z) :=
  for_ (range 0 L) (λ j Q,
    for_ (range 0 L) (λ k Q,
      beads ← mapM (λ i, getitem variables (i, j, k))
        (filter (λ i, is_Some (variables !! (i, j, k))) (range 0 N));
      if decide (1 < length beads) then
        for_ (range 0 (length beads)) (λ b1 Q,
          for_ (range (b1 + 1) (length beads)) (λ b2 Q,
            x ← list_index beads b1;
            y ← list_index beads b2;
            Ok (accum Q ((x, y), 10%Z))) Q) Q
      else Ok Q) Q) Q.

(** Term 4: connectivity between consecutive beads. *)
Definition term4 (Q : gmap qkey Z) : result (gmap qkey Z) :=
  for_ (range 0 (N - 1)) (λ i Q,
    for_ (range 0 L) (λ j Q,
      for_ (range 0 L) (λ k Q,
        if decide (parity_ok i j k) then
          let possible_next_positions : list (nat * nat) :=
            jp ← range 0 L; kp ← range 0 L;
            if decide (manhattan j k jp kp = 1%Z ∧ parity_ok (i + 1) jp kp)
            then [(jp, kp)] else [] in
          if decide (possible_next_positions ≠ []) then
            next_bead_vars ←
              mapM (λ p : nat * nat, getitem variables (i + 1, p.1, p.2))
                possible_next_positions;
            for_ next_bead_vars (λ next_var Q,
              a ← getitem variables (i, j, k);
              Ok (accum Q ((a, next_var), (-3)%Z))) Q
          else Ok Q
        else Ok Q) Q) Q) Q.

(** The dictionary handed to the sampler. *)
Definition build : result (gmap qkey Z) :=
  Q ← term1 ∅; Q ← term2 Q; Q ← term3 Q; term4 Q.

(** *** The writes each loop performs, in loop order

    Each write is recorded as the pair of index triples whose variables it
    couples; the loops above are shown further down to perform exactly
    these writes, in this order. *)

Definition both_H (f fp : nat) : Prop :=
  String.get f sequence = Some "H"%char ∧
  String.get fp sequence = Some "H"%char.

Definition writes1 : list (triple * triple) :=
  f ← range 0 N; fp ← range (f + 2) N;
  if decide (both_H f fp) then
    j ← range 0 L; k ← range 0 L; jp ← range 0 L; kp ← range 0 L;
    if decide (manhattan j k jp kp = 1%Z) then
      if decide (parity_ok f j k ∧ parity_ok fp jp kp)
      then [((f, j, k), (fp, jp, kp))] else []
    else []
  else [].

Definition writes2 : list (triple * triple) :=
  i ← range 0 N; j ← range 0 L; k ← range 0 L;
  if decide (parity_ok i j k) then
    p ← (jp ← range 0 L; kp ← range 0 L;
         if decide (parity_ok i jp kp ∧ (jp, kp) ≠ (j, k))
         then [(jp, kp)] else []);
    [((i, j, k), (i, p.1, p.2))]
  else [].

Definition candidates (j k : nat) : list nat :=
  filter (λ i, parity_ok i j k) (range 0 N).

Definition writes3 : list (triple * triple) :=
  j ← range 0 L; k ← range 0 L;
  b1 ← range 0 (length (candidates j k));
  b2 ← range (b1 + 1) (length (candidates j k));
  match candidates j k !! b1, candidates j k !! b2 with
  | Some i1, Some i2 => [((i1, j, k), (i2, j, k))]
  | _, _ => []
  end.

Definition writes4 : list (triple * triple) :=
  i ← range 0 (N - 1); j ← range 0 L; k ← range 0 L;
  if decide (parity_ok i j k) then
    p ← (jp ← range 0 L; kp ← range 0 L;
         if decide (manhattan j k jp kp = 1%Z ∧ parity_ok (i + 1) jp kp)
         then [(jp, kp)] else []);
    [((i, j, k), (i + 1, p.1, p.2))]
  else [].

(** *** Running the four loops in an arbitrary order *)

Definition run_term (t : term_id) (Q : gmap qkey Z) : result (gmap qkey Z) :=
  match t with
  | T1 => term1 Q
  | T2 => term2 Q
  | T3 => term3 Q
  | T4 => term4 Q
  end.

Definition build_in (order : list term_id) : result (gmap qkey Z) :=
  for_ order run_term ∅.
End Builder.

(** ** The decoder *)

(** [s.split(sep)] for a one-character separator. *)
Fixpoint split (sep : ascii) (s : string) : list string :=
  match s with
  | "" => [""]
  | String c s' =>
      if decide (c = sep) then "" :: split sep s'
      else match split sep s' with
           | h :: t => String c h :: t
           | [] => [String c ""]
           end
  end.

(** [int(s)] on the strings the decoder meets: a non-empty run of decimal
    digits denotes its value, anything else raises [ValueError].  (Python
    also accepts a sign and surrounding blanks; no variable name produced by
    [var_name] contains either.) *)
Definition int (s : string) : result nat :=
  match NilZero.uint_of_string s with
  | Some d => Ok (Nat.of_uint d)
  | None => Raise ValueError
  end.

(** The body of the loop over [lowest_energy_sample.items()]: one item
    [(variable_name, value)] against the dictionary [positions] built so far. *)
Definition decode_item (item : string * Z) (positions : gmap nat (nat * nat))
    : result (gmap nat (nat * nat)) :=
  let variable_name := item.1 in
  let value := item.2 in
  if decide (value = 1%Z) then
    let parts := split "_" variable_name in
    i ← (p ← list_index parts 1; int p);
    j ← (p ← list_index parts 2; int p);
    k ← (p ← list_index parts 3; int p);
    Ok (<[i := (j, k)]> positions)
  else Ok positions.

(** The decoder; the sample is the list of its items in iteration order. *)
Definition positions (lowest_energy_sample : list (string * Z))
    : result (gmap nat (nat * nat)) :=
  for_ lowest_energy_sample decode_item ∅.

(** ** Reading coefficients *)

(** [Q.get(key, 0)] *)
Definition coef (Q : gmap qkey Z) (key : qkey) : Z := default 0%Z (Q !! key).

(** The variable an index triple stands for, and the key a pair of them forms. *)
Definition name (t : triple) : string := var_name t.1.1 t.1.2 t.2.
Definition key_of (p : triple * triple) : qkey := (name p.1, name p.2).

(** Performing a list of writes of one coefficient [c]. *)
Definition apply_writes (c : Z) (Q : gmap qkey Z) (l : list (triple * triple))
    : gmap qkey Z :=
  foldl (λ Q p, accum Q (key_of p, c)) Q l.

(** ** The plot of the chain *)

(** The calls the plotting loop makes on the axes, in order:
    [ax.plot(j, k, 'o', color=color)], [ax.text(j, k, label)] and
    [ax.plot([prev_j, j], [prev_k, k])]. *)
Inductive draw :=
  | PlotPoint (j k : nat) (color : string)
  | Text (j k : nat) (label : string)
  | PlotLine (prev_j j prev_k k : nat).

(** [colors = {'H': 'blue', 'P': 'red'}] *)
Definition colors : gmap ascii string :=
  dict_of_list [("H"%char, "blue"); ("P"%char, "red")].

(** The body of [for index in range(len(positions))], against the calls
    made so far. *)
Definition plot_bead (sequence : string) (positions : gmap nat (nat * nat))
    (index : nat) (calls : list draw) : result (list draw) :=
  jk ← getitem positions index;
  h ← str_index sequence index;
  color ← getitem colors h;
  let calls := (calls ++ [PlotPoint jk.1 jk.2 color;
                          Text jk.1 jk.2 (str_of_nat index)])%list in
  if decide (0 < index) then
    prev ← getitem positions (index - 1);
    Ok (calls ++ [PlotLine prev.1 jk.1 prev.2 jk.2])%list
  else Ok calls.

(** The plotting loop over the decoded positions. *)
Definition plot_chain (sequence : string) (positions : gmap nat (nat * nat))
    : result (list draw) :=
  for_ (range 0 (size positions)) (plot_bead sequence positions) [].

(** The calls the loop makes for bead [index] when nothing is missing: the
    point in the colour of the residue, the label, and from the second bead
    on the segment from the previous bead. *)
Definition bead_calls (sequence : string) (positions : gmap nat (nat * nat))
    (index : nat) : list draw :=
  match positions !! index, positions !! (index - 1),
        String.get index sequence ≫= (colors !!.) with
  | Some jk, Some prev, Some color =>
      ([PlotPoint jk.1 jk.2 color; Text jk.1 jk.2 (str_of_nat index)]
       ++ if decide (0 < index) then [PlotLine prev.1 jk.1 prev.2 jk.2]
          else [])%list
  | _, _, _ => []
  end.

(** ** Vocabulary of the statements *)

(** A triple the table has a variable for. *)
Definition in_grid (sequence : string) (t : triple) : Prop :=
  t.1.1 < N sequence ∧ t.1.2 < L sequence ∧ t.2 < L sequence ∧
  parity_ok t.1.1 t.1.2 t.2.

Global Instance in_grid_dec sequence t : Decision (in_grid sequence t).
Proof. unfold in_grid. apply _. Defined.

(** Two triples on lattice-neighbouring sites. *)
Definition adjacent (t u : triple) : Prop :=
  manhattan t.1.2 t.2 u.1.2 u.2 = 1%Z.

(** Two valid variables of beads at least two apart in the chain, both
    hydrophobic, on neighbouring sites. *)
Definition term1_pair (sequence : string) (p : triple * triple) : Prop :=
  in_grid sequence p.1 ∧ in_grid sequence p.2 ∧
  (p.1.1.1 + 2 ≤ p.2.1.1)%nat ∧ both_H sequence p.1.1.1 p.2.1.1 ∧
  adjacent p.1 p.2.

(** Two valid variables of the same bead on different sites. *)
Definition term2_pair (sequence : string) (p : triple * triple) : Prop :=
  in_grid sequence p.1 ∧ in_grid sequence p.2 ∧
  p.1.1.1 = p.2.1.1 ∧ (p.1.1.2, p.1.2) ≠ (p.2.1.2, p.2.2).

(** Two valid variables of different beads on the same site, the bead of
    lower index first. *)
Definition term3_pair (sequence : string) (p : triple * triple) : Prop :=
  in_grid sequence p.1 ∧ in_grid sequence p.2 ∧
  p.1.1.1 < p.2.1.1 ∧ (p.1.1.2, p.1.2) = (p.2.1.2, p.2.2).

(** Two valid variables of consecutive beads on neighbouring sites. *)
Definition term4_pair (sequence : string) (p : triple * triple) : Prop :=
  in_grid sequence p.1 ∧ in_grid sequence p.2 ∧
  p.2.1.1 = (p.1.1.1 + 1)%nat ∧ adjacent p.1 p.2.

(** The coefficient, the writes and the pairs of each loop. *)
Definition coef_of (t : term_id) : Z :=
  match t with T1 => -1 | T2 => 2 | T3 => 10 | T4 => -3 end%Z.

Definition writes_of (sequence : string) (t : term_id) : list (triple * triple) :=
  match t with
  | T1 => writes1 sequence
  | T2 => writes2 sequence
  | T3 => writes3 sequence
  | T4 => writes4 sequence
  end.

Definition pair_of (sequence : string) (t : term_id) : triple * triple → Prop :=
  match t with
  | T1 => term1_pair sequence
  | T2 => term2_pair sequence
  | T3 => term3_pair sequence
  | T4 => term4_pair sequence
  end.

(** What a loop writes into an empty dictionary. *)
Definition alone (sequence : string) (t : term_id) : gmap qkey Z :=
  apply_writes (coef_of t) ∅ (writes_of sequence t).

(** Key-wise sum of two dictionaries. *)
Definition merge (Q1 Q2 : gmap qkey Z) : gmap qkey Z :=
  union_with (λ a b, Some (a + b)%Z) Q1 Q2.

Global Instance term_id_eq_dec : EqDecision term_id.
Proof. solve_decision. Defined.

Global Instance term1_pair_dec sequence p : Decision (term1_pair sequence p).
Proof. unfold term1_pair, in_grid, adjacent, both_H. apply _. Defined.

Global Instance term2_pair_dec sequence p : Decision (term2_pair sequence p).
Proof. unfold term2_pair, in_grid. apply _. Defined.

Global Instance term3_pair_dec sequence p : Decision (term3_pair sequence p).
Proof. unfold term3_pair, in_grid. apply _. Defined.

Global Instance term4_pair_dec sequence p : Decision (term4_pair sequence p).
Proof. unfold term4_pair, in_grid, adjacent. apply _. Defined.

Global Instance pair_of_dec sequence t p : Decision (pair_of sequence t p) :=
  match t with
  | T1 => term1_pair_dec sequence p
  | T2 => term2_pair_dec sequence p
  | T3 => term3_pair_dec sequence p
  | T4 => term4_pair_dec sequence p
  end.

(** The dictionary [build] returns. *)
Definition final (sequence : string) : gmap qkey Z :=
  foldl merge ∅ (alone sequence <$> [T1; T2; T3; T4]).

(** The number of variables bead [i] owns in the table. *)
Definition bead_count (sequence : string) (i : nat) : nat :=
  size (filter (λ kv : triple * string, kv.1.1.1 = i) (variables sequence)).

(** The entries the comprehension produces for bead [i]. *)
Definition row (width : nat) (i : nat) : list (triple * string) :=
  j ← range 0 width; k ← range 0 width;
  if decide (parity_ok i j k) then [((i, j, k), var_name i j k)] else [].

(** * Properties *)

(** ** Loops and comprehensions *)

Lemma for_app {A S} (l1 l2 : list A) (body : A → S → result S) s :
  for_ (l1 ++ l2) body s = (s' ← for_ l1 body s; for_ l2 body s').
Proof.
  revert s. induction l1 as [|x l1 IH]; intros s; simpl; [done|].
  destruct (body x s); simpl; auto.
Qed.

(** A loop whose body performs the writes [w x] performs their
    concatenation. *)
Lemma for_trace {A S W} (g : S → W → S) (w : A → list W)
    (l : list A) (body : A → S → result S) s :
  (∀ x s, x ∈ l → body x s = Ok (foldl g s (w x))) →
  for_ l body s = Ok (foldl g s (l ≫= w)).
Proof.
  revert s. induction l as [|x l IH]; intros s Hbody; [done|].
  rewrite bind_cons, foldl_app. cbn [for_].
  rewrite Hbody by apply list_elem_of_here. simpl. apply IH.
  intros y s' Hy. apply Hbody. by apply list_elem_of_further.
Qed.

Lemma for_fmap {A B S} (h : A → B) (l : list A) (body : B → S → result S) s :
  for_ (h <$> l) body s = for_ l (λ x, body (h x)) s.
Proof.
  revert s. induction l as [|x l IH]; intros s; simpl; [done|].
  destruct (body (h x) s); simpl; auto.
Qed.

Lemma mapM_ok {A B} (f : A → result B) (h : A → B) (l : list A) :
  (∀ x, x ∈ l → f x = Ok (h x)) → mapM f l = Ok (h <$> l).
Proof.
  induction l as [|x l IH]; intros Hf; simpl; [done|].
  rewrite Hf by apply list_elem_of_here. simpl.
  rewrite IH; [done|]. intros y Hy. apply Hf. by apply list_elem_of_further.
Qed.

Lemma elem_of_range a b x : x ∈ range a b ↔ a ≤ x < b.
Proof. unfold range. rewrite elem_of_seq. lia. Qed.

Lemma NoDup_range a b : NoDup (range a b).
Proof. apply NoDup_seq. Qed.

Lemma elem_of_if_decide {A} (P : Prop) `{Decision P} (l : list A) y :
  y ∈ (if decide P then l else []) ↔ P ∧ y ∈ l.
Proof. destruct (decide P); [tauto|]. rewrite elem_of_nil. tauto. Qed.

Lemma NoDup_if_decide {A} (P : Prop) `{Decision P} (l : list A) :
  NoDup l → NoDup (if decide P then l else []).
Proof. case_decide; [done|]. intros _. constructor. Qed.

(** Elements of a nested comprehension that remember the index they were
    generated from cannot repeat. *)
Lemma NoDup_bind_proj {A B} (π : B → A) (f : A → list B) (l : list A) :
  NoDup l →
  (∀ x, x ∈ l → NoDup (f x)) →
  (∀ x y, x ∈ l → y ∈ f x → π y = x) →
  NoDup (l ≫= f).
Proof.
  intros Hl Hf Hπ. apply NoDup_bind; [|done|done].
  intros x1 x2 y H1 H2 Hy1 Hy2.
  rewrite <-(Hπ x1 y H1 Hy1). by apply Hπ.
Qed.

Lemma filter_ext_in {A} (P1 P2 : A → Prop)
    `{!∀ x, Decision (P1 x), !∀ x, Decision (P2 x)} (l : list A) :
  (∀ x, x ∈ l → P1 x ↔ P2 x) → filter P1 l = filter P2 l.
Proof.
  induction l as [|a l IH]; intros Hiff; [done|].
  rewrite !filter_cons.
  rewrite (decide_ext (P1 a) (P2 a)) by apply Hiff, list_elem_of_here.
  rewrite IH; [done|]. intros x Hx. by apply Hiff, list_elem_of_further.
Qed.

(** A filtered range is increasing. *)
Lemma filter_seq_lt (P : nat → Prop) `{!∀ x, Decision (P x)} a n b1 b2 x y :
  filter P (seq a n) !! b1 = Some x →
  filter P (seq a n) !! b2 = Some y →
  b1 < b2 → x < y.
Proof.
  revert a b1 b2. induction n as [|n IH]; intros a b1 b2; [done|].
  cbn [seq]. rewrite filter_cons. destruct (decide (P a)); [|apply IH].
  destruct b1 as [|b1], b2 as [|b2]; try lia; simpl.
  - intros [= <-] Hy%list_elem_of_lookup_2 _.
    apply list_elem_of_filter in Hy as [_ Hy]. apply elem_of_seq in Hy. lia.
  - intros ???. apply (IH (S a) b1 b2); (done || lia).
Qed.

(** ** Dictionary comprehensions *)

Section dict_of_list.
Context `{Countable K} {V : Type}.
Implicit Types l : list (K * V).

Lemma dict_of_list_snoc l kv :
  dict_of_list (l ++ [kv]) = <[kv.1 := kv.2]> (dict_of_list l).
Proof. unfold dict_of_list. by rewrite foldl_app. Qed.

Lemma dict_of_list_dom l key :
  key ∈ dom (dict_of_list l) ↔ key ∈ l.*1.
Proof.
  induction l as [|kv l IH] using rev_ind.
  - unfold dict_of_list. simpl. rewrite dom_empty, elem_of_nil.
    apply elem_of_empty.
  - rewrite dict_of_list_snoc, dom_insert, fmap_app, elem_of_app.
    rewrite elem_of_union, elem_of_singleton, IH. simpl.
    rewrite list_elem_of_singleton. tauto.
Qed.

Lemma dict_of_list_lookup (f : K → V) l key :
  (∀ kv, kv ∈ l → kv.2 = f kv.1) →
  dict_of_list l !! key = if decide (key ∈ l.*1) then Some (f key) else None.
Proof.
  intros Hf. destruct (decide (key ∈ l.*1)) as [Hin|Hin].
  - induction l as [|kv l IH] using rev_ind.
    + by apply elem_of_nil in Hin.
    + rewrite dict_of_list_snoc.
      assert (kv.2 = f kv.1) as ->
        by (apply Hf, elem_of_app; right; apply list_elem_of_here).
      destruct (decide (kv.1 = key)) as [->|Hne].
      * by rewrite lookup_insert_eq.
      * rewrite lookup_insert_ne by done. apply IH.
        -- intros kv' Hkv'. apply Hf, elem_of_app. by left.
        -- rewrite fmap_app, elem_of_app in Hin. simpl in Hin.
           rewrite list_elem_of_singleton in Hin. by destruct Hin.
  - apply not_elem_of_dom. by rewrite dict_of_list_dom.
Qed.

Lemma dict_of_list_size l : NoDup l.*1 → size (dict_of_list l) = length l.
Proof.
  induction l as [|kv l IH] using rev_ind; intros Hnd; [done|].
  rewrite dict_of_list_snoc, length_app. simpl.
  rewrite fmap_app in Hnd. apply NoDup_app in Hnd as (Hl & Hdis & _).
  rewrite map_size_insert_None.
  - rewrite IH by done. lia.
  - apply not_elem_of_dom. rewrite dict_of_list_dom. intros Hin.
    apply (Hdis _ Hin). simpl. apply list_elem_of_here.
Qed.
End dict_of_list.

(** ** Variable names: splitting, parsing, injectivity *)

Lemma append_String c s r : String c s +:+ r = String c (s +:+ r).
Proof. reflexivity. Qed.

Lemma append_empty r : "" +:+ r = r.
Proof. reflexivity. Qed.

Lemma split_digits_sep (d : Decimal.uint) (rest : string) :
  split "_" (NilEmpty.string_of_uint d +:+ String "_" rest)
  = NilEmpty.string_of_uint d :: split "_" rest.
Proof.
  induction d; simpl NilEmpty.string_of_uint; [done|..];
    rewrite append_String; cbn [split]; rewrite IHd;
    by rewrite decide_False.
Qed.

Lemma split_digits (d : Decimal.uint) :
  split "_" (NilEmpty.string_of_uint d) = [NilEmpty.string_of_uint d].
Proof.
  induction d; simpl NilEmpty.string_of_uint; [done|..];
    cbn [split]; rewrite IHd; by rewrite decide_False.
Qed.

Lemma split_var_name i j k :
  split "_" (var_name i j k)
  = ["x"; str_of_nat i; str_of_nat j; str_of_nat k].
Proof.
  unfold var_name, str_of_nat. rewrite !append_String, !append_empty.
  cbn [split]. rewrite decide_False, decide_True by done.
  by rewrite !split_digits_sep, split_digits.
Qed.

Lemma to_uint_nonnil n : Nat.to_uint n ≠ Decimal.Nil.
Proof.
  rewrite <-(Unsigned.of_to n), Unsigned.to_of.
  unfold Decimal.unorm. by destruct (Decimal.nzhead _).
Qed.

Lemma int_str_of_nat n : int (str_of_nat n) = Ok n.
Proof.
  unfold int, str_of_nat.
  pose proof (NilZero.usu (Nat.to_uint n) (to_uint_nonnil n)) as Hu.
  unfold NilZero.string_of_uint in Hu.
  destruct (Nat.to_uint n) eqn:Hn; try (by destruct (to_uint_nonnil n));
    rewrite Hu, <-Hn, Unsigned.of_to; done.
Qed.

Global Instance str_of_nat_inj : Inj (=) (=) str_of_nat.
Proof.
  intros n m Heq. assert (int (str_of_nat n) = int (str_of_nat m)) as Hi
    by (by rewrite Heq).
  rewrite !int_str_of_nat in Hi. by injection Hi.
Qed.

Lemma var_name_inj i j k i' j' k' :
  var_name i j k = var_name i' j' k' → i = i' ∧ j = j' ∧ k = k'.
Proof.
  intros Heq. assert (split "_" (var_name i j k) = split "_" (var_name i' j' k'))
    as Hs by (by rewrite Heq).
  rewrite !split_var_name in Hs. injection Hs as Hi Hj Hk.
  by apply (inj _) in Hi, Hj, Hk.
Qed.

Lemma var_pair_inj i j k i' j' k' a b c a' b' c' :
  (var_name i j k, var_name i' j' k') = (var_name a b c, var_name a' b' c') →
  (i = a ∧ j = b ∧ k = c) ∧ (i' = a' ∧ j' = b' ∧ k' = c').
Proof.
  intros Heq. split.
  - apply var_name_inj. exact (f_equal fst Heq).
  - apply var_name_inj. exact (f_equal snd Heq).
Qed.

Global Instance name_inj : Inj (=) (=) name.
Proof.
  intros [[i j] k] [[i' j'] k'] Heq. apply var_name_inj in Heq. simpl in Heq.
  destruct Heq as (-> & -> & ->). done.
Qed.

Global Instance key_of_inj : Inj (=) (=) key_of.
Proof.
  intros [a b] [a' b'] Heq.
  pose proof (f_equal fst Heq) as Ha. pose proof (f_equal snd Heq) as Hb.
  unfold key_of in Ha, Hb. cbn [fst snd] in Ha, Hb.
  apply (inj name) in Ha. apply (inj name) in Hb. by subst.
Qed.

(** ** The variable table *)

Ltac unfold_elem :=
  repeat (setoid_rewrite list_elem_of_bind
          || setoid_rewrite elem_of_if_decide
          || setoid_rewrite elem_of_range
          || setoid_rewrite list_elem_of_singleton
          || setoid_rewrite list_elem_of_fmap
          || setoid_rewrite list_elem_of_filter).

Ltac nodup_proj := intros ? ? _; unfold_elem; naive_solver.

Section Variables.
Context (sequence : string).
Local Abbreviation N := (N sequence).
Local Abbreviation L := (L sequence).
Local Abbreviation variables := (variables sequence).

Lemma variables_lookup (t : triple) :
  variables !! t = if decide (in_grid sequence t) then Some (name t) else None.
Proof.
  unfold variables. rewrite (dict_of_list_lookup name).
  - apply decide_ext. destruct t as [[i j] k]. unfold in_grid. simpl.
    unfold_elem. split.
    + naive_solver lia.
    + intros (?&?&?&?). exists ((i, j, k), var_name i j k).
      split; [done|]. exists i. split; [|lia]. exists j. split; [|lia].
      exists k. split; [done|lia].
  - intros kv. unfold_elem. naive_solver.
Qed.

Lemma getitem_variables i j k :
  i < N → j < L → k < L → parity_ok i j k →
  getitem variables (i, j, k) = Ok (var_name i j k).
Proof.
  intros. unfold getitem. rewrite variables_lookup, decide_True; [done|].
  by unfold in_grid.
Qed.

Lemma str_index_lt n : n < N → ∃ c, String.get n sequence = Some c.
Proof.
  unfold N. generalize sequence. clear. intros s. revert n.
  induction s as [|c s IH]; intros n Hn; simpl in *; [lia|].
  destruct n as [|n]; [eauto|]. apply IH. lia.
Qed.
End Variables.

Lemma add_or_set_accum Q pair c : add_or_set Q pair c = accum Q (pair, c).
Proof.
  unfold add_or_set, accum. simpl. destruct (Q !! pair); simpl; [done|].
  f_equal.
Qed.

Lemma interaction_nonzero h1 h2 :
  interaction h1 h2 ≠ 0%Z ↔ h1 = "H"%char ∧ h2 = "H"%char.
Proof. unfold interaction. case_decide; split; try done. Qed.

(** ** Each loop performs exactly its list of writes *)

Section Trace.
Context (sequence : string).
Local Abbreviation N := (N sequence).
Local Abbreviation L := (L sequence).
Local Abbreviation variables := (variables sequence).

Lemma term1_trace Q :
  term1 sequence Q = Ok (apply_writes (-1) Q (writes1 sequence)).
Proof.
  unfold term1, writes1, apply_writes.
  apply for_trace. intros f Q1 Hf%elem_of_range. cbn beta.
  apply for_trace. intros fp Q2 Hfp%elem_of_range. cbn beta.
  destruct (str_index_lt sequence f) as [h1 Hh1]; [lia|].
  destruct (str_index_lt sequence fp) as [h2 Hh2]; [lia|].
  unfold str_index, both_H. rewrite Hh1, Hh2. cbn [mbind result_bind].
  rewrite (decide_ext _ (h1 = "H"%char ∧ h2 = "H"%char))
    by apply interaction_nonzero.
  rewrite (decide_ext (Some h1 = _ ∧ _) (h1 = "H"%char ∧ h2 = "H"%char))
    by naive_solver.
  case_decide as HH; [|done]. destruct HH as [-> ->].
  apply for_trace. intros j Q3 Hj%elem_of_range. cbn beta.
  apply for_trace. intros k Q4 Hk%elem_of_range. cbn beta.
  apply for_trace. intros jp Q5 Hjp%elem_of_range. cbn beta.
  apply for_trace. intros kp Q6 Hkp%elem_of_range. cbn beta.
  case_decide; [|done]. case_decide as Hpar; [|done].
  destruct Hpar as [Hp1 Hp2].
  rewrite !getitem_variables by (done || lia). cbn [mbind result_bind].
  by rewrite add_or_set_accum.
Qed.

Lemma term2_trace Q :
  term2 sequence Q = Ok (apply_writes 2 Q (writes2 sequence)).
Proof.
  unfold term2, writes2, apply_writes.
  apply for_trace. intros i Q1 Hi%elem_of_range. cbn beta.
  apply for_trace. intros j Q2 Hj%elem_of_range. cbn beta.
  apply for_trace. intros k Q3 Hk%elem_of_range. cbn beta.
  case_decide as Hpar; [|done].
  rewrite (mapM_ok _ (λ p : nat * nat, var_name i p.1 p.2)).
  - cbn [mbind result_bind]. rewrite for_fmap.
    apply for_trace. intros p Q4 _. cbn beta.
    rewrite getitem_variables by (done || lia). done.
  - intros [jp kp]. unfold_elem. intros (jp' & (kp' & ([Hp' _] & [= <- <-]) & ?) & ?).
    simpl. apply getitem_variables; (done || lia).
Qed.

Lemma term4_trace Q :
  term4 sequence Q = Ok (apply_writes (-3) Q (writes4 sequence)).
Proof.
  unfold term4, writes4, apply_writes.
  apply for_trace. intros i Q1 Hi%elem_of_range. cbn beta.
  apply for_trace. intros j Q2 Hj%elem_of_range. cbn beta.
  apply for_trace. intros k Q3 Hk%elem_of_range. cbn beta.
  case_decide as Hpar; [|done]. cbn zeta.
  case_decide as Hne.
  - rewrite (mapM_ok _ (λ p : nat * nat, var_name (i + 1) p.1 p.2)).
    + cbn [mbind result_bind]. rewrite for_fmap.
      apply for_trace. intros p Q4 _. cbn beta.
      rewrite getitem_variables by (done || lia). done.
    + intros [jp kp]. unfold_elem.
      intros (jp' & (kp' & ([_ Hp'] & [= <- <-]) & ?) & ?).
      simpl. apply getitem_variables; (done || lia).
  - by rewrite Hne.
Qed.

Lemma term3_trace Q :
  term3 sequence Q = Ok (apply_writes 10 Q (writes3 sequence)).
Proof.
  unfold term3, writes3, apply_writes.
  apply for_trace. intros j Q1 Hj%elem_of_range. cbn beta.
  apply for_trace. intros k Q2 Hk%elem_of_range. cbn beta.
  rewrite (filter_ext_in _ (λ i, parity_ok i j k)).
  2:{ intros i Hi%elem_of_range. rewrite variables_lookup.
      unfold in_grid. simpl. case_decide; [naive_solver|].
      split; [by intros []|]. intros Hp. naive_solver lia. }
  fold (candidates sequence j k).
  rewrite (mapM_ok _ (λ i, var_name i j k)).
  2:{ intros i. unfold candidates. unfold_elem. intros [Hp Hi].
      apply getitem_variables; (done || lia). }
  cbn [mbind result_bind]. rewrite length_fmap.
  case_decide as Hlen.
  - apply for_trace. intros b1 Q3 Hb1%elem_of_range. cbn beta.
    apply for_trace. intros b2 Q4 Hb2%elem_of_range. cbn beta.
    unfold list_index. rewrite !list_lookup_fmap.
    destruct (lookup_lt_is_Some_2 (candidates sequence j k) b1) as [i1 ->];
      [lia|].
    destruct (lookup_lt_is_Some_2 (candidates sequence j k) b2) as [i2 ->];
      [lia|].
    done.
  - destruct (candidates sequence j k) as [|i1 [|i2 l]]; simpl in *;
      [done|done|lia].
Qed.
End Trace.

(** ** Which pairs each loop writes *)

Section Pairs.
Context (sequence : string).
Local Abbreviation N := (N sequence).
Local Abbreviation L := (L sequence).

Lemma elem_of_writes1 p : p ∈ writes1 sequence ↔ term1_pair sequence p.
Proof.
  destruct p as [[[f j] k] [[fp jp] kp]].
  unfold writes1, term1_pair, in_grid, adjacent. simpl. unfold_elem. split.
  - naive_solver lia.
  - intros ((?&?&?&?)&(?&?&?&?)&?&?&?).
    exists f. split; [|lia]. exists fp. split; [|lia]. split; [done|].
    exists j. split; [|lia]. exists k. split; [|lia].
    exists jp. split; [|lia]. exists kp. split; [|lia]. done.
Qed.

Lemma elem_of_writes2 p : p ∈ writes2 sequence ↔ term2_pair sequence p.
Proof.
  destruct p as [[[i j] k] [[i' jp] kp]].
  unfold writes2, term2_pair, in_grid. simpl. unfold_elem. split.
  - naive_solver lia.
  - intros ((?&?&?&?)&(?&?&?&?)&<-&?).
    exists i. split; [|lia]. exists j. split; [|lia].
    exists k. split; [|lia]. split; [done|].
    exists (jp, kp). split; [done|].
    exists jp. split; [|lia]. exists kp. split; [|lia].
    split; [|done]. split; [done|]. congruence.
Qed.

Lemma elem_of_writes4 p : p ∈ writes4 sequence ↔ term4_pair sequence p.
Proof.
  destruct p as [[[i j] k] [[i' jp] kp]].
  unfold writes4, term4_pair, in_grid, adjacent. simpl. unfold_elem. split.
  - naive_solver lia.
  - intros ((?&?&?&?)&(?&?&?&?)&->&?).
    exists i. split; [|lia]. exists j. split; [|lia].
    exists k. split; [|lia]. split; [done|].
    exists (jp, kp). split; [done|].
    exists jp. split; [|lia]. exists kp. split; [|lia]. done.
Qed.

(** The writes of one loop never hit the same pair twice. *)
Lemma NoDup_writes1 : NoDup (writes1 sequence).
Proof.
  unfold writes1.
  apply (NoDup_bind_proj (λ p, p.1.1.1)); [apply NoDup_range|intros f _|nodup_proj].
  apply (NoDup_bind_proj (λ p, p.2.1.1)); [apply NoDup_range|intros fp _|nodup_proj].
  apply NoDup_if_decide.
  apply (NoDup_bind_proj (λ p, p.1.1.2)); [apply NoDup_range|intros j _|nodup_proj].
  apply (NoDup_bind_proj (λ p, p.1.2)); [apply NoDup_range|intros k _|nodup_proj].
  apply (NoDup_bind_proj (λ p, p.2.1.2)); [apply NoDup_range|intros jp _|nodup_proj].
  apply (NoDup_bind_proj (λ p, p.2.2)); [apply NoDup_range|intros kp _|nodup_proj].
  do 2 apply NoDup_if_decide. apply NoDup_singleton.
Qed.

Lemma NoDup_writes2 : NoDup (writes2 sequence).
Proof.
  unfold writes2.
  apply (NoDup_bind_proj (λ p, p.1.1.1)); [apply NoDup_range|intros i _|nodup_proj].
  apply (NoDup_bind_proj (λ p, p.1.1.2)); [apply NoDup_range|intros j _|nodup_proj].
  apply (NoDup_bind_proj (λ p, p.1.2)); [apply NoDup_range|intros k _|nodup_proj].
  apply NoDup_if_decide.
  apply (NoDup_bind_proj (λ p, (p.2.1.2, p.2.2)));
    [|intros; apply NoDup_singleton
     |intros [] ? _; unfold_elem; by intros ->].
  apply (NoDup_bind_proj fst); [apply NoDup_range|intros jp _|nodup_proj].
  apply (NoDup_bind_proj snd); [apply NoDup_range|intros kp _|nodup_proj].
  apply NoDup_if_decide, NoDup_singleton.
Qed.

Lemma NoDup_writes4 : NoDup (writes4 sequence).
Proof.
  unfold writes4.
  apply (NoDup_bind_proj (λ p, p.1.1.1)); [apply NoDup_range|intros i _|nodup_proj].
  apply (NoDup_bind_proj (λ p, p.1.1.2)); [apply NoDup_range|intros j _|nodup_proj].
  apply (NoDup_bind_proj (λ p, p.1.2)); [apply NoDup_range|intros k _|nodup_proj].
  apply NoDup_if_decide.
  apply (NoDup_bind_proj (λ p, (p.2.1.2, p.2.2)));
    [|intros; apply NoDup_singleton
     |intros [] ? _; unfold_elem; by intros ->].
  apply (NoDup_bind_proj fst); [apply NoDup_range|intros jp _|nodup_proj].
  apply (NoDup_bind_proj snd); [apply NoDup_range|intros kp _|nodup_proj].
  apply NoDup_if_decide, NoDup_singleton.
Qed.

Lemma elem_of_candidates i j k :
  i ∈ candidates sequence j k ↔ parity_ok i j k ∧ i < N.
Proof. unfold candidates. unfold_elem. naive_solver lia. Qed.

Lemma NoDup_candidates j k : NoDup (candidates sequence j k).
Proof. apply NoDup_filter, NoDup_range. Qed.

Lemma candidates_lookup_lt j k b1 b2 i1 i2 :
  candidates sequence j k !! b1 = Some i1 →
  candidates sequence j k !! b2 = Some i2 →
  b1 < b2 → i1 < i2.
Proof. apply filter_seq_lt. Qed.

Lemma elem_of_writes3 p : p ∈ writes3 sequence ↔ term3_pair sequence p.
Proof.
  destruct p as [[[i1 j] k] [[i2 j'] k']].
  unfold writes3, term3_pair, in_grid. simpl. unfold_elem. split.
  - intros (j0 & (k0 & (b1 & (b2 & Hin & Hb2) & Hb1) & Hk) & Hj).
    destruct (candidates sequence j0 k0 !! b1) as [x|] eqn:Hx;
      [|by apply elem_of_nil in Hin].
    destruct (candidates sequence j0 k0 !! b2) as [y|] eqn:Hy;
      [|by apply elem_of_nil in Hin].
    apply list_elem_of_singleton in Hin. simplify_eq.
    pose proof (candidates_lookup_lt _ _ _ _ _ _ Hx Hy ltac:(lia)).
    apply list_elem_of_lookup_2, elem_of_candidates in Hx, Hy.
    naive_solver lia.
  - intros ((?&?&?&?)&(?&?&?&?)&?&[= <- <-]).
    assert (i1 ∈ candidates sequence j k) as [b1 Hb1]%list_elem_of_lookup_1
      by (by apply elem_of_candidates).
    assert (i2 ∈ candidates sequence j k) as [b2 Hb2]%list_elem_of_lookup_1
      by (by apply elem_of_candidates).
    assert (b1 < b2).
    { destruct (decide (b1 < b2)) as [|Hge]; [done|].
      destruct (decide (b1 = b2)) as [->|]; [simplify_eq; lia|].
      pose proof (candidates_lookup_lt _ _ _ _ _ _ Hb2 Hb1 ltac:(lia)). lia. }
    pose proof (lookup_lt_Some _ _ _ Hb1). pose proof (lookup_lt_Some _ _ _ Hb2).
    exists j. split; [|lia]. exists k. split; [|lia].
    exists b1. split; [|lia]. exists b2. split; [|lia].
    rewrite Hb1, Hb2. by apply list_elem_of_singleton.
Qed.

Lemma NoDup_writes3 : NoDup (writes3 sequence).
Proof.
  unfold writes3.
  apply (NoDup_bind_proj (λ p, p.1.1.2)); [apply NoDup_range|intros j _|].
  2:{ intros j p _. unfold_elem. intros (k & (b1 & (b2 & Hin & _) & _) & _).
      repeat case_match; try (by apply elem_of_nil in Hin).
      by apply list_elem_of_singleton in Hin as ->. }
  apply (NoDup_bind_proj (λ p, p.1.2)); [apply NoDup_range|intros k _|].
  2:{ intros k p _. unfold_elem. intros (b1 & (b2 & Hin & _) & _).
      repeat case_match; try (by apply elem_of_nil in Hin).
      by apply list_elem_of_singleton in Hin as ->. }
  apply NoDup_bind; [|intros b1 _|apply NoDup_range].
  - intros b1 b1' p _ _. unfold_elem.
    intros (b2 & Hin & _) (b2' & Hin' & _).
    repeat case_match; try (by apply elem_of_nil in Hin);
      try (by apply elem_of_nil in Hin').
    apply list_elem_of_singleton in Hin as ->.
    apply list_elem_of_singleton in Hin'. simplify_eq.
    by eapply NoDup_lookup; [apply (NoDup_candidates j k)|..].
  - apply NoDup_bind; [|intros b2 _|apply NoDup_range].
    + intros b2 b2' p _ _ Hin Hin'.
      repeat case_match; try (by apply elem_of_nil in Hin);
        try (by apply elem_of_nil in Hin').
      apply list_elem_of_singleton in Hin as ->.
      apply list_elem_of_singleton in Hin'. simplify_eq.
      by eapply NoDup_lookup; [apply (NoDup_candidates j k)|..].
    + repeat case_match; (apply NoDup_singleton || apply NoDup_nil_2).
Qed.
End Pairs.

(** ** Accumulating a list of writes *)

Lemma accum_lookup Q key' c key :
  accum Q (key', c) !! key
  = if decide (key = key') then Some (coef Q key + c)%Z else Q !! key.
Proof.
  unfold accum, coef. simpl. case_decide as Heq.
  - subst. by rewrite lookup_insert_eq.
  - by rewrite lookup_insert_ne.
Qed.

Lemma apply_writes_nil c Q : apply_writes c Q [] = Q.
Proof. done. Qed.

Lemma apply_writes_cons c Q p l :
  apply_writes c Q (p :: l) = apply_writes c (accum Q (key_of p, c)) l.
Proof. done. Qed.

(** When no pair is written twice, a written key gains exactly [c] and every
    other key is left as it was. *)
Lemma apply_writes_lookup c Q l key :
  NoDup l →
  apply_writes c Q l !! key
  = if decide (key ∈ key_of <$> l) then Some (coef Q key + c)%Z else Q !! key.
Proof.
  intros Hnd. revert Q. induction Hnd as [|p l Hp Hnd IH]; intros Q.
  - rewrite apply_writes_nil, decide_False; [done|]. apply not_elem_of_nil.
  - rewrite apply_writes_cons, IH, fmap_cons.
    destruct (decide (key ∈ key_of <$> l)) as [Hin|Hin].
    + rewrite decide_True by (by apply list_elem_of_further).
      assert (key ≠ key_of p) as Hne.
      { intros ->. by apply (list_elem_of_fmap_inj key_of) in Hin. }
      unfold coef. by rewrite accum_lookup, decide_False.
    + rewrite accum_lookup. apply decide_ext. rewrite elem_of_cons. tauto.
Qed.

Lemma elem_of_keys (l : list (triple * triple)) (P : triple * triple → Prop) key :
  (∀ p, p ∈ l ↔ P p) →
  key ∈ key_of <$> l ↔ ∃ p, key = key_of p ∧ P p.
Proof. intros HP. rewrite list_elem_of_fmap. by setoid_rewrite HP. Qed.

Lemma apply_writes_spec c Q l (P : triple * triple → Prop) :
  NoDup l → (∀ p, p ∈ l ↔ P p) →
  (∀ p, P p → apply_writes c Q l !! key_of p = Some (coef Q (key_of p) + c)%Z) ∧
  (∀ key, apply_writes c Q l !! key ≠ Q !! key →
          (∃ p, P p ∧ key = key_of p) ∧
          apply_writes c Q l !! key = Some (coef Q key + c)%Z) ∧
  (∀ key, (∀ p, P p → key ≠ key_of p) → apply_writes c Q l !! key = Q !! key).
Proof.
  intros Hnd HP.
  assert (∀ key, apply_writes c Q l !! key ≠ Q !! key →
                 (∃ p, P p ∧ key = key_of p) ∧
                 apply_writes c Q l !! key = Some (coef Q key + c)%Z) as Hch.
  { intros key. rewrite apply_writes_lookup by done.
    case_decide as Hin; [|done]. intros _. split; [|done].
    apply (elem_of_keys _ P) in Hin as (p & -> & Hp); eauto. }
  split_and!; [|done|].
  - intros p Hp. rewrite apply_writes_lookup, decide_True; [done| |done].
    apply list_elem_of_fmap_2. by apply HP.
  - intros key Hkey. rewrite apply_writes_lookup, decide_False; [done| |done].
    rewrite (elem_of_keys _ P) by done. intros (p & -> & Hp). by eapply Hkey.
Qed.

(** Unfolding a pair predicate on explicit indices. *)
Ltac pair_unfold :=
  unfold term1_pair, term2_pair, term3_pair, term4_pair, in_grid, adjacent,
    both_H, key_of, name in *; cbn [fst snd] in *.

(** * The four terms *)

(** C4. Term 1 (HP energy): started on any dictionary [Q], the loop returns
    a dictionary in which every pair of valid variables of two hydrophobic
    beads at chain distance at least two, on lattice-neighbouring sites, has
    gained exactly -1; any key whose entry changed is such a pair.  When the
    sequence has no two hydrophobic residues at chain distance at least two,
    the loop leaves the dictionary unchanged. *)
Theorem term1_adds_interaction (sequence : string) (Q : gmap qkey Z) :
  ∃ Q', term1 sequence Q = Ok Q' ∧
    (∀ f j k fp jp kp,
       f + 2 ≤ fp → fp < N sequence →
       String.get f sequence = Some "H"%char →
       String.get fp sequence = Some "H"%char →
       j < L sequence → k < L sequence → jp < L sequence → kp < L sequence →
       manhattan j k jp kp = 1%Z →
       parity_ok f j k → parity_ok fp jp kp →
       Q' !! (var_name f j k, var_name fp jp kp)
       = Some (coef Q (var_name f j k, var_name fp jp kp) + -1)%Z) ∧
    (∀ key, Q' !! key ≠ Q !! key →
       ∃ f j k fp jp kp,
         key = (var_name f j k, var_name fp jp kp) ∧
         f + 2 ≤ fp ∧ fp < N sequence ∧
         String.get f sequence = Some "H"%char ∧
         String.get fp sequence = Some "H"%char ∧
         j < L sequence ∧ k < L sequence ∧ jp < L sequence ∧ kp < L sequence ∧
         manhattan j k jp kp = 1%Z ∧ parity_ok f j k ∧ parity_ok fp jp kp) ∧
    ((∀ f fp, f + 2 ≤ fp → fp < N sequence → ¬ both_H sequence f fp) →
       Q' = Q).
Proof.
  eexists. split; [apply term1_trace|].
  destruct (apply_writes_spec (-1) Q (writes1 sequence) (term1_pair sequence))
    as (Hin & Hch & _); [apply NoDup_writes1|apply elem_of_writes1|].
  split_and!.
  - intros f j k fp jp kp ???????????.
    apply (Hin ((f, j, k), (fp, jp, kp))). pair_unfold.
    split_and!; (done || lia).
  - intros key [([[[f j] k] [[fp jp] kp]] & Hp & ->) _]%Hch. pair_unfold.
    exists f, j, k, fp, jp, kp. naive_solver.
  - intros HnoH. replace (writes1 sequence) with (@nil (triple * triple)); [done|].
    symmetry. apply elem_of_nil_inv. intros [[[f j] k] [[fp jp] kp]].
    rewrite elem_of_writes1. unfold term1_pair, in_grid. simpl.
    intros (_ & (? & _) & ? & ? & _). by apply (HnoH f fp).
Qed.

(** C5. Term 4 (connectivity): started on any dictionary [Q], the loop
    returns a dictionary in which, for every bead [i] that has a successor,
    every site [(j, k)] valid for [i] and every neighbouring site [(jp, kp)]
    valid for [i + 1], the pair of their variables has gained exactly -3; any
    key whose entry changed is such a pair. *)
Theorem term4_adds_connectivity (sequence : string) (Q : gmap qkey Z) :
  ∃ Q', term4 sequence Q = Ok Q' ∧
    (∀ i j k jp kp,
       i < N sequence - 1 →
       j < L sequence → k < L sequence → jp < L sequence → kp < L sequence →
       parity_ok i j k →
       manhattan j k jp kp = 1%Z → parity_ok (i + 1) jp kp →
       Q' !! (var_name i j k, var_name (i + 1) jp kp)
       = Some (coef Q (var_name i j k, var_name (i + 1) jp kp) + -3)%Z) ∧
    (∀ key, Q' !! key ≠ Q !! key →
       ∃ i j k jp kp,
         key = (var_name i j k, var_name (i + 1) jp kp) ∧
         i < N sequence - 1 ∧
         j < L sequence ∧ k < L sequence ∧ jp < L sequence ∧ kp < L sequence ∧
         parity_ok i j k ∧
         manhattan j k jp kp = 1%Z ∧ parity_ok (i + 1) jp kp).
Proof.
  eexists. split; [apply term4_trace|].
  destruct (apply_writes_spec (-3) Q (writes4 sequence) (term4_pair sequence))
    as (Hin & Hch & _); [apply NoDup_writes4|apply elem_of_writes4|].
  split.
  - intros i j k jp kp ????????.
    apply (Hin ((i, j, k), (i + 1, jp, kp))). pair_unfold.
    split_and!; (done || lia).
  - intros key [([[[i j] k] [[i' jp] kp]] & Hp & ->) _]%Hch. pair_unfold.
    destruct Hp as ((?&?&?&?)&(?&?&?&?)&->&?).
    exists i, j, k, jp, kp. split_and!; (done || lia).
Qed.

(** C7. Term 2 (one site per bead): started on any dictionary [Q], the loop
    returns a dictionary in which, for every bead [i] and every ordered pair
    of distinct sites both valid for [i], the pair of their variables has
    gained exactly +2; any key whose entry changed couples two variables of
    one and the same bead. *)
Theorem term2_adds_placement (sequence : string) (Q : gmap qkey Z) :
  ∃ Q', term2 sequence Q = Ok Q' ∧
    (∀ i j k jp kp,
       i < N sequence →
       j < L sequence → k < L sequence → jp < L sequence → kp < L sequence →
       parity_ok i j k → parity_ok i jp kp → (j, k) ≠ (jp, kp) →
       Q' !! (var_name i j k, var_name i jp kp)
       = Some (coef Q (var_name i j k, var_name i jp kp) + 2)%Z) ∧
    (∀ key, Q' !! key ≠ Q !! key →
       ∃ i j k jp kp,
         key = (var_name i j k, var_name i jp kp) ∧
         i < N sequence ∧
         j < L sequence ∧ k < L sequence ∧ jp < L sequence ∧ kp < L sequence ∧
         parity_ok i j k ∧ parity_ok i jp kp ∧ (j, k) ≠ (jp, kp)).
Proof.
  eexists. split; [apply term2_trace|].
  destruct (apply_writes_spec 2 Q (writes2 sequence) (term2_pair sequence))
    as (Hin & Hch & _); [apply NoDup_writes2|apply elem_of_writes2|].
  split.
  - intros i j k jp kp ????????.
    apply (Hin ((i, j, k), (i, jp, kp))). pair_unfold.
    split_and!; (done || lia).
  - intros key [([[[i j] k] [[i' jp] kp]] & Hp & ->) _]%Hch. pair_unfold.
    destruct Hp as ((?&?&?&?)&(?&?&?&?)&<-&?).
    exists i, j, k, jp, kp. split_and!; (done || lia).
Qed.

(** Running a list of writes of coefficient [c] moves an entry by [c] or
    leaves it as it was. *)
Lemma apply_writes_delta c Q l key :
  NoDup l →
  apply_writes c Q l !! key = Q !! key ∨
  (coef (apply_writes c Q l) key - coef Q key = c)%Z.
Proof.
  intros Hnd. unfold coef at 1. rewrite apply_writes_lookup by done.
  case_decide; [right|by left]. simpl. lia.
Qed.

Lemma term1_delta sequence Q Q1 key :
  term1 sequence Q = Ok Q1 →
  Q1 !! key = Q !! key ∨ (coef Q1 key - coef Q key = -1)%Z.
Proof.
  rewrite term1_trace. intros [= <-].
  apply apply_writes_delta, NoDup_writes1.
Qed.

Lemma term3_delta sequence Q Q3 key :
  term3 sequence Q = Ok Q3 →
  Q3 !! key = Q !! key ∨ (coef Q3 key - coef Q key = 10)%Z.
Proof.
  rewrite term3_trace. intros [= <-].
  apply apply_writes_delta, NoDup_writes3.
Qed.

Lemma term4_delta sequence Q Q4 key :
  term4 sequence Q = Ok Q4 →
  Q4 !! key = Q !! key ∨ (coef Q4 key - coef Q key = -3)%Z.
Proof.
  rewrite term4_trace. intros [= <-].
  apply apply_writes_delta, NoDup_writes4.
Qed.

Lemma coef_unchanged (Q Q' : gmap qkey Z) key :
  Q' !! key = Q !! key → (coef Q' key - coef Q key = 0)%Z.
Proof. unfold coef. intros ->. lia. Qed.

(** C6. Term 3 (self-avoidance): started on any dictionary [Q], the loop
    returns a dictionary in which, for every site [(j, k)] and every two
    different beads [i1 < i2] that can both occupy it, the key with the
    lower bead first has gained exactly +10 while the reversed key is left
    as it was (each unordered pair is written once); any key whose entry
    changed is such a pair.  The magnitudes are fixed, whatever the sequence
    and the dictionary: Term 3 moves an entry by 10 or not at all, Term 4
    (run on any sequence and dictionary) by -3 or not at all, Term 1 by -1 or
    not at all.  Hence every change made by Term 3 is strictly larger in
    magnitude than whatever Term 4 does to any entry for any sequence, and
    every change made by Term 4 strictly larger than whatever Term 1 does:
    10 > 3 > 1, none of the comparisons depending on another term having
    written something for the same sequence. *)
Theorem term3_adds_self_avoidance (sequence : string) (Q : gmap qkey Z) :
  ∃ Q', term3 sequence Q = Ok Q' ∧
    (∀ j k i1 i2,
       j < L sequence → k < L sequence →
       i1 < i2 → i2 < N sequence →
       parity_ok i1 j k → parity_ok i2 j k →
       Q' !! (var_name i1 j k, var_name i2 j k)
       = Some (coef Q (var_name i1 j k, var_name i2 j k) + 10)%Z ∧
       Q' !! (var_name i2 j k, var_name i1 j k)
       = Q !! (var_name i2 j k, var_name i1 j k)) ∧
    (∀ key, Q' !! key ≠ Q !! key →
       ∃ j k i1 i2,
         key = (var_name i1 j k, var_name i2 j k) ∧
         j < L sequence ∧ k < L sequence ∧ i1 < i2 ∧ i2 < N sequence ∧
         parity_ok i1 j k ∧ parity_ok i2 j k) ∧
    (∀ key3,
       Q' !! key3 = Q !! key3 ∨ (coef Q' key3 - coef Q key3 = 10)%Z) ∧
    (∀ sequence4 Q0 key4, ∃ Q4,
       term4 sequence4 Q0 = Ok Q4 ∧
       (Q4 !! key4 = Q0 !! key4 ∨ (coef Q4 key4 - coef Q0 key4 = -3)%Z) ∧
       (∀ key3, Q' !! key3 ≠ Q !! key3 →
          (Z.abs (coef Q4 key4 - coef Q0 key4)
           < Z.abs (coef Q' key3 - coef Q key3))%Z)) ∧
    (∀ sequence1 Q0 key1, ∃ Q1,
       term1 sequence1 Q0 = Ok Q1 ∧
       (Q1 !! key1 = Q0 !! key1 ∨ (coef Q1 key1 - coef Q0 key1 = -1)%Z) ∧
       (∀ key3, Q' !! key3 ≠ Q !! key3 →
          (Z.abs (coef Q1 key1 - coef Q0 key1)
           < Z.abs (coef Q' key3 - coef Q key3))%Z) ∧
       (∀ sequence4 Q0' Q4 key4,
          term4 sequence4 Q0' = Ok Q4 → Q4 !! key4 ≠ Q0' !! key4 →
          (Z.abs (coef Q1 key1 - coef Q0 key1)
           < Z.abs (coef Q4 key4 - coef Q0' key4))%Z)) ∧
    (∀ Q1 Q4 key1 key3 key4,
       term1 sequence Q = Ok Q1 → term4 sequence Q = Ok Q4 →
       Q1 !! key1 ≠ Q !! key1 →
       Q' !! key3 ≠ Q !! key3 →
       Q4 !! key4 ≠ Q !! key4 →
       (coef Q' key3 - coef Q key3 = 10 ∧
        coef Q4 key4 - coef Q key4 = -3 ∧
        coef Q1 key1 - coef Q key1 = -1 ∧
        Z.abs (coef Q4 key4 - coef Q key4) < Z.abs (coef Q' key3 - coef Q key3) ∧
        Z.abs (coef Q1 key1 - coef Q key1) < Z.abs (coef Q4 key4 - coef Q key4))%Z).
Proof.
  eexists. split; [apply term3_trace|].
  destruct (apply_writes_spec 10 Q (writes3 sequence) (term3_pair sequence))
    as (Hin & Hch & Hout); [apply NoDup_writes3|apply elem_of_writes3|].
  assert (∀ key3, apply_writes 10 Q (writes3 sequence) !! key3 ≠ Q !! key3 →
            (coef (apply_writes 10 Q (writes3 sequence)) key3
             - coef Q key3 = 10)%Z) as Hten.
  { intros key3 Hc3.
    destruct (apply_writes_delta 10 Q (writes3 sequence) key3); [|done|done].
    apply NoDup_writes3. }
  split_and!.
  - intros j k i1 i2 ??????. split.
    + apply (Hin ((i1, j, k), (i2, j, k))). pair_unfold.
      split_and!; (done || lia).
    + apply Hout. intros [[[a j'] k'] [[b j''] k'']] Hp Heq. pair_unfold.
      apply var_pair_inj in Heq. lia.
  - intros key [([[[i1 j] k] [[i2 j'] k']] & Hp & ->) _]%Hch. pair_unfold.
    destruct Hp as ((?&?&?&?)&(?&?&?&?)&?&[= <- <-]).
    exists j, k, i1, i2. split_and!; (done || lia).
  - intros key3. apply apply_writes_delta, NoDup_writes3.
  - intros sequence4 Q0 key4. eexists. split; [apply term4_trace|].
    pose proof (apply_writes_delta (-3) Q0 (writes4 sequence4) key4
                  (NoDup_writes4 sequence4)) as Hd4.
    split; [done|]. intros key3 Hc3%Hten. rewrite Hc3.
    destruct Hd4 as [Hd4%coef_unchanged|Hd4]; rewrite Hd4; lia.
  - intros sequence1 Q0 key1. eexists. split; [apply term1_trace|].
    pose proof (apply_writes_delta (-1) Q0 (writes1 sequence1) key1
                  (NoDup_writes1 sequence1)) as Hd1.
    split; [done|]. split.
    + intros key3 Hc3%Hten. rewrite Hc3.
      destruct Hd1 as [Hd1%coef_unchanged|Hd1]; rewrite Hd1; lia.
    + intros sequence4 Q0' Q4 key4 H4 Hc4.
      destruct (term4_delta _ _ _ key4 H4) as [|Hd4]; [done|]. rewrite Hd4.
      destruct Hd1 as [Hd1%coef_unchanged|Hd1]; rewrite Hd1; lia.
  - intros Q1 Q4 key1 key3 key4 H1 H4 Hc1 Hc3 Hc4.
    destruct (term1_delta _ _ _ key1 H1) as [|Hd1]; [done|].
    destruct (term4_delta _ _ _ key4 H4) as [|Hd4]; [done|].
    apply Hten in Hc3. rewrite Hd1, Hc3, Hd4. lia.
Qed.



(** * The four terms together *)

Lemma merge_lookup Q1 Q2 key :
  merge Q1 Q2 !! key
  = match Q2 !! key with
    | Some c => Some (coef Q1 key + c)%Z
    | None => Q1 !! key
    end.
Proof.
  unfold merge, coef. rewrite lookup_union_with.
  destruct (Q1 !! key), (Q2 !! key); simpl; done.
Qed.

Lemma merge_coef Q1 Q2 key : coef (merge Q1 Q2) key = (coef Q1 key + coef Q2 key)%Z.
Proof.
  unfold coef at 1. rewrite merge_lookup. unfold coef.
  destruct (Q1 !! key), (Q2 !! key); simpl; lia.
Qed.

Lemma merge_None Q1 Q2 key :
  merge Q1 Q2 !! key = None ↔ Q1 !! key = None ∧ Q2 !! key = None.
Proof. rewrite merge_lookup. destruct (Q1 !! key), (Q2 !! key); naive_solver. Qed.

Lemma merge_swap Q Qa Qb : merge (merge Q Qa) Qb = merge (merge Q Qb) Qa.
Proof.
  apply map_eq. intros key. rewrite !merge_lookup. unfold coef.
  rewrite !merge_lookup. unfold coef.
  destruct (Q !! key), (Qa !! key), (Qb !! key); simpl; f_equal; lia.
Qed.

Lemma foldl_merge_perm (l1 l2 : list (gmap qkey Z)) Q :
  l1 ≡ₚ l2 → foldl merge Q l1 = foldl merge Q l2.
Proof.
  intros Hp. revert Q. induction Hp as [|x l1 l2 _ IH|x y l|l1 l2 l3 _ IH1 _ IH2];
    intros Q; simpl.
  - done.
  - apply IH.
  - by rewrite merge_swap.
  - by rewrite IH1.
Qed.

Section Together.
Context (sequence : string).

Lemma run_term_trace t Q :
  run_term sequence t Q = Ok (apply_writes (coef_of t) Q (writes_of sequence t)).
Proof.
  destruct t; simpl.
  - apply term1_trace.
  - apply term2_trace.
  - apply term3_trace.
  - apply term4_trace.
Qed.

Lemma NoDup_writes_of t : NoDup (writes_of sequence t).
Proof.
  destruct t; simpl;
    [apply NoDup_writes1|apply NoDup_writes2|apply NoDup_writes3|apply NoDup_writes4].
Qed.

Lemma elem_of_writes_of t p : p ∈ writes_of sequence t ↔ pair_of sequence t p.
Proof.
  destruct t; simpl;
    [apply elem_of_writes1|apply elem_of_writes2|apply elem_of_writes3
    |apply elem_of_writes4].
Qed.

Lemma alone_lookup t key :
  alone sequence t !! key
  = if decide (key ∈ key_of <$> writes_of sequence t)
    then Some (coef_of t) else None.
Proof.
  unfold alone. rewrite apply_writes_lookup by apply NoDup_writes_of.
  unfold coef. rewrite lookup_empty. simpl. by destruct (coef_of t).
Qed.

Lemma alone_lookup_Some t key c :
  alone sequence t !! key = Some c ↔
  c = coef_of t ∧ ∃ p, key = key_of p ∧ pair_of sequence t p.
Proof.
  rewrite alone_lookup.
  rewrite <-(elem_of_keys (writes_of sequence t)) by apply elem_of_writes_of.
  case_decide; naive_solver.
Qed.

Lemma run_term_merge t Q :
  run_term sequence t Q = Ok (merge Q (alone sequence t)).
Proof.
  rewrite run_term_trace. f_equal. apply map_eq. intros key.
  rewrite merge_lookup, alone_lookup.
  rewrite apply_writes_lookup by apply NoDup_writes_of.
  by case_decide.
Qed.

Lemma build_in_merge order :
  build_in sequence order = Ok (foldl merge ∅ (alone sequence <$> order)).
Proof.
  unfold build_in. generalize (∅ : gmap qkey Z).
  induction order as [|t order IH]; intros Q; simpl; [done|].
  rewrite run_term_merge. simpl. apply IH.
Qed.

Lemma build_build_in : build sequence = build_in sequence [T1; T2; T3; T4].
Proof.
  unfold build, build_in. simpl.
  rewrite term1_trace. simpl. rewrite term2_trace. simpl.
  rewrite term3_trace. simpl. by rewrite term4_trace.
Qed.

(** No pair belongs to two different loops. *)
Lemma pair_of_disjoint t t' p :
  pair_of sequence t p → pair_of sequence t' p → t = t'.
Proof.
  destruct p as [[[i j] k] [[i' j'] k']].
  destruct t, t'; simpl; try done; pair_unfold; unfold manhattan;
    intros (?&?&?&?) (?&?&?&?); exfalso; simplify_eq; try lia; naive_solver lia.
Qed.
End Together.

(** A pair of a loop holds, after the loop, what it held before plus the
    coefficient of the loop. *)
Lemma run_term_lookup_pair sequence t Q Q' p :
  run_term sequence t Q = Ok Q' → pair_of sequence t p →
  Q' !! key_of p = Some (coef Q (key_of p) + coef_of t)%Z.
Proof.
  rewrite run_term_trace. intros [= <-] Hp.
  rewrite apply_writes_lookup by apply NoDup_writes_of.
  rewrite decide_True; [done|].
  apply list_elem_of_fmap_2. by apply elem_of_writes_of.
Qed.

(** The three magnitudes all occur for "HPPH": Term 3 couples beads 0 and 2
    on the site (0, 0), Term 4 beads 0 and 1, Term 1 beads 0 and 3. *)
Lemma term3_adds_self_avoidance_witness :
  ∃ Q3 Q4 Q1,
    term3 "HPPH" ∅ = Ok Q3 ∧ term4 "HPPH" ∅ = Ok Q4 ∧
    term1 "HPPH" ∅ = Ok Q1 ∧
    (coef Q3 (var_name 0 0 0, var_name 2 0 0) - 0 = 10)%Z ∧
    (coef Q4 (var_name 0 0 0, var_name 1 0 1) - 0 = -3)%Z ∧
    (coef Q1 (var_name 0 0 0, var_name 3 0 1) - 0 = -1)%Z ∧
    (Z.abs (coef Q4 (var_name 0 0 0, var_name 1 0 1) - 0)
     < Z.abs (coef Q3 (var_name 0 0 0, var_name 2 0 0) - 0))%Z ∧
    (Z.abs (coef Q1 (var_name 0 0 0, var_name 3 0 1) - 0)
     < Z.abs (coef Q4 (var_name 0 0 0, var_name 1 0 1) - 0))%Z.
Proof.
  set (key3 := (var_name 0 0 0, var_name 2 0 0)).
  set (key4 := (var_name 0 0 0, var_name 1 0 1)).
  set (key1 := (var_name 0 0 0, var_name 3 0 1)).
  destruct (term3_adds_self_avoidance "HPPH" ∅)
    as (Q3 & H3 & _ & _ & Hd3 & H4all & H1all & _).
  destruct (H4all "HPPH" ∅ key4) as (Q4 & H4 & Hd4 & Hdom34).
  destruct (H1all "HPPH" ∅ key1) as (Q1 & H1 & Hd1 & _ & Hdom14).
  specialize (Hd3 key3). specialize (Hdom34 key3).
  specialize (Hdom14 "HPPH" (∅ : gmap qkey Z) Q4 key4 H4).
  assert (Q3 !! key3 = Some 10%Z) as Hten.
  { apply (run_term_lookup_pair "HPPH" T3 ∅ Q3 ((0, 0, 0), (2, 0, 0)) H3).
    repeat split; vm_compute; (reflexivity || lia). }
  assert (Q4 !! key4 = Some (-3)%Z) as Hthree.
  { apply (run_term_lookup_pair "HPPH" T4 ∅ Q4 ((0, 0, 0), (1, 0, 1)) H4).
    repeat split; vm_compute; (reflexivity || lia). }
  assert (Q1 !! key1 = Some (-1)%Z) as Hone.
  { apply (run_term_lookup_pair "HPPH" T1 ∅ Q1 ((0, 0, 0), (3, 0, 1)) H1).
    repeat split; vm_compute; (reflexivity || lia). }
  assert (∀ (Q : gmap qkey Z) key c,
            Q !! key = Some c → Q !! key ≠ (∅ : gmap qkey Z) !! key)
    as Hchanged.
  { intros Q key c Hc. rewrite Hc, lookup_empty. discriminate. }
  destruct Hd3 as [Hd3|Hd3]; [by destruct (Hchanged _ _ _ Hten)|].
  destruct Hd4 as [Hd4|Hd4]; [by destruct (Hchanged _ _ _ Hthree)|].
  destruct Hd1 as [Hd1|Hd1]; [by destruct (Hchanged _ _ _ Hone)|].
  exists Q3, Q4, Q1. split_and!; [exact H3|exact H4|exact H1|exact Hd3
    |exact Hd4|exact Hd1| |].
  - apply Hdom34. exact (Hchanged _ _ _ Hten).
  - apply Hdom14. exact (Hchanged _ _ _ Hthree).
Defined.

Lemma alone_coef sequence t p :
  coef (alone sequence t) (key_of p)
  = if decide (pair_of sequence t p) then coef_of t else 0%Z.
Proof.
  unfold coef. rewrite alone_lookup.
  rewrite (decide_ext _ (pair_of sequence t p)); [by case_decide|].
  rewrite (list_elem_of_fmap_inj key_of). apply elem_of_writes_of.
Qed.

Section Final.
Context (sequence : string).

Lemma build_final : build sequence = Ok (final sequence).
Proof. rewrite build_build_in. apply build_in_merge. Qed.

Lemma alone_disjoint t t' key c c' :
  alone sequence t !! key = Some c → alone sequence t' !! key = Some c' → t = t'.
Proof.
  intros (_ & p & -> & Hp)%alone_lookup_Some (_ & p' & Heq & Hp')%alone_lookup_Some.
  apply (inj key_of) in Heq as <-. by eapply pair_of_disjoint.
Qed.

Lemma final_lookup key c :
  final sequence !! key = Some c ↔ ∃ t, alone sequence t !! key = Some c.
Proof.
  unfold final. simpl. repeat (rewrite merge_lookup || rewrite merge_coef).
  unfold coef. rewrite lookup_empty.
  destruct (alone sequence T1 !! key) as [c1|] eqn:E1,
    (alone sequence T2 !! key) as [c2|] eqn:E2,
    (alone sequence T3 !! key) as [c3|] eqn:E3,
    (alone sequence T4 !! key) as [c4|] eqn:E4;
    try (by pose proof (alone_disjoint _ _ _ _ _ E1 E2));
    try (by pose proof (alone_disjoint _ _ _ _ _ E1 E3));
    try (by pose proof (alone_disjoint _ _ _ _ _ E1 E4));
    try (by pose proof (alone_disjoint _ _ _ _ _ E2 E3));
    try (by pose proof (alone_disjoint _ _ _ _ _ E2 E4));
    try (by pose proof (alone_disjoint _ _ _ _ _ E3 E4));
    simpl;
    (split;
     [intros Hc; simplify_eq
     |intros [t Ht]; destruct t; rewrite ?E1, ?E2, ?E3, ?E4 in Ht;
      simplify_eq; f_equal; lia]).
  - exists T1; rewrite E1; f_equal; lia.
  - exists T2; rewrite E2; f_equal; lia.
  - exists T3; rewrite E3; f_equal; lia.
  - exists T4; rewrite E4; f_equal; lia.
Qed.

Lemma final_lookup_pair t p :
  pair_of sequence t p → final sequence !! key_of p = Some (coef_of t).
Proof.
  intros Hp. apply final_lookup. exists t. apply alone_lookup_Some. eauto.
Qed.

Lemma final_lookup_Some key c :
  final sequence !! key = Some c →
  ∃ t p, c = coef_of t ∧ key = key_of p ∧ pair_of sequence t p.
Proof.
  intros [t (-> & p & -> & Hp)%alone_lookup_Some]%final_lookup. eauto.
Qed.
End Final.

(** C1. The dictionary [build] returns is the key-wise sum of what the four
    loops write on their own: each loop, started on any dictionary, adds its
    own contribution to the entry already there (an absent entry counting as
    0) and removes nothing; so the final coefficient of a pair is the sum of
    the contributions of the terms the pair belongs to, a key is present
    exactly when some term writes it, and running the four loops in any order
    yields the same dictionary. *)
Theorem build_sums_terms (sequence : string) :
  ∃ Q Q1 Q2 Q3 Q4,
    build sequence = Ok Q ∧
    term1 sequence ∅ = Ok Q1 ∧ term2 sequence ∅ = Ok Q2 ∧
    term3 sequence ∅ = Ok Q3 ∧ term4 sequence ∅ = Ok Q4 ∧
    (∀ key, coef Q key
            = (coef Q1 key + coef Q2 key + coef Q3 key + coef Q4 key)%Z) ∧
    (∀ key, Q !! key = None ↔
            Q1 !! key = None ∧ Q2 !! key = None ∧
            Q3 !! key = None ∧ Q4 !! key = None) ∧
    (∀ p, coef Q (key_of p)
          = ((if decide (term1_pair sequence p) then -1 else 0) +
             (if decide (term2_pair sequence p) then 2 else 0) +
             (if decide (term3_pair sequence p) then 10 else 0) +
             (if decide (term4_pair sequence p) then -3 else 0))%Z) ∧
    (∀ t Q0, ∃ Q',
       run_term sequence t Q0 = Ok Q' ∧
       ∀ key,
         let part := match t with T1 => Q1 | T2 => Q2 | T3 => Q3 | T4 => Q4 end in
         coef Q' key = (coef Q0 key + coef part key)%Z ∧
         (Q' !! key = None ↔ Q0 !! key = None ∧ part !! key = None)) ∧
    (∀ order, order ≡ₚ [T1; T2; T3; T4] → build_in sequence order = Ok Q).
Proof.
  exists (foldl merge ∅ (alone sequence <$> [T1; T2; T3; T4])),
    (alone sequence T1), (alone sequence T2),
    (alone sequence T3), (alone sequence T4).
  assert (∀ t, run_term sequence t ∅ = Ok (alone sequence t)) as Halone.
  { intros t. apply run_term_trace. }
  split_and!.
  - rewrite build_build_in. apply build_in_merge.
  - apply (Halone T1).
  - apply (Halone T2).
  - apply (Halone T3).
  - apply (Halone T4).
  - intros key. simpl. rewrite !merge_coef. unfold coef at 1.
    rewrite lookup_empty. simpl. lia.
  - intros key. simpl. rewrite !merge_None, lookup_empty. naive_solver.
  - intros p. simpl. rewrite !merge_coef. unfold coef at 1.
    rewrite lookup_empty, !alone_coef. simpl. lia.
  - intros t Q0. exists (merge Q0 (alone sequence t)).
    split; [apply run_term_merge|]. intros key.
    assert (match t with
            | T1 => alone sequence T1 | T2 => alone sequence T2
            | T3 => alone sequence T3 | T4 => alone sequence T4
            end = alone sequence t) as -> by (by destruct t).
    split; [apply merge_coef|apply merge_None].
  - intros order Hperm. rewrite build_in_merge. f_equal.
    apply foldl_merge_perm. by rewrite Hperm.
Qed.

(** C8. [build] returns a dictionary for every sequence, whatever characters
    it holds: no lookup in the loops can fail.  [interaction] is 0 as soon as
    one of its arguments is not ['H'], and a position whose character is not
    ['H'] takes part in no Term 1 write: Term 1 leaves every key that names
    a variable of such a bead as it was.  Terms 2 to 4 and the variable table
    depend on the sequence through its length only. *)
Theorem build_total (sequence : string) :
  (∃ Q, build sequence = Ok Q) ∧
  (∀ h1 h2, h1 ≠ "H"%char ∨ h2 ≠ "H"%char → interaction h1 h2 = 0%Z) ∧
  (∀ Q0, ∃ Q1,
     term1 sequence Q0 = Ok Q1 ∧
     ∀ f j k fp jp kp,
       String.get f sequence ≠ Some "H"%char ∨
       String.get fp sequence ≠ Some "H"%char →
       Q1 !! (var_name f j k, var_name fp jp kp)
       = Q0 !! (var_name f j k, var_name fp jp kp)) ∧
  (∀ sequence' Q0,
     String.length sequence' = String.length sequence →
     variables sequence' = variables sequence ∧
     term2 sequence' Q0 = term2 sequence Q0 ∧
     term3 sequence' Q0 = term3 sequence Q0 ∧
     term4 sequence' Q0 = term4 sequence Q0).
Proof.
  split_and!.
  - rewrite build_build_in, build_in_merge. eauto.
  - intros h1 h2 HnotH. unfold interaction. case_decide; [tauto|done].
  - intros Q0. eexists. split; [apply term1_trace|].
    intros f j k fp jp kp HnotH.
    destruct (apply_writes_spec (-1) Q0 (writes1 sequence) (term1_pair sequence))
      as (_ & _ & Hout); [apply NoDup_writes1|apply elem_of_writes1|].
    apply Hout. intros [[[a b] c] [[a' b'] c']] Hp Heq. pair_unfold.
    apply var_pair_inj in Heq. naive_solver.
  - intros sequence' Q0 Hlen.
    assert (N sequence' = N sequence) as HN by done.
    assert (L sequence' = L sequence) as HL by (unfold L; by rewrite HN).
    split_and!.
    + unfold variables. by rewrite HN, HL.
    + rewrite !term2_trace. unfold writes2. by rewrite HN, HL.
    + rewrite !term3_trace. unfold writes3, candidates. by rewrite HN, HL.
    + rewrite !term4_trace. unfold writes4. by rewrite HN, HL.
Qed.

(** C10. Every key of the dictionary [build] returns is a pair of two
    different variables of the table.  The four loops write pairwise
    disjoint sets of keys: Term 2 keys couple two variables of one bead,
    Term 4 keys beads at chain distance 1 on neighbouring sites, Term 1 keys
    beads at chain distance at least 2 on neighbouring sites, Term 3 keys
    beads at chain distance at least 2 on one site.  Hence every key holds
    the single contribution of the one loop that writes it, and every
    coefficient is -1, +2, +10 or -3. *)
Theorem build_keys_disjoint (sequence : string) :
  ∃ Q Q1 Q2 Q3 Q4,
    build sequence = Ok Q ∧
    term1 sequence ∅ = Ok Q1 ∧ term2 sequence ∅ = Ok Q2 ∧
    term3 sequence ∅ = Ok Q3 ∧ term4 sequence ∅ = Ok Q4 ∧
    (∀ a b c, Q !! (a, b) = Some c →
       a ≠ b ∧
       (∃ t, variables sequence !! t = Some a) ∧
       (∃ t, variables sequence !! t = Some b)) ∧
    (Q1 ##ₘ Q2 ∧ Q1 ##ₘ Q3 ∧ Q1 ##ₘ Q4 ∧ Q2 ##ₘ Q3 ∧ Q2 ##ₘ Q4 ∧ Q3 ##ₘ Q4) ∧
    (∀ key c, Q2 !! key = Some c →
       c = 2%Z ∧
       ∃ i j k jp kp, key = (var_name i j k, var_name i jp kp)) ∧
    (∀ key c, Q4 !! key = Some c →
       c = (-3)%Z ∧
       ∃ i j k jp kp,
         key = (var_name i j k, var_name (i + 1) jp kp) ∧
         manhattan j k jp kp = 1%Z) ∧
    (∀ key c, Q1 !! key = Some c →
       c = (-1)%Z ∧
       ∃ f j k fp jp kp,
         key = (var_name f j k, var_name fp jp kp) ∧
         f + 2 ≤ fp ∧ manhattan j k jp kp = 1%Z) ∧
    (∀ key c, Q3 !! key = Some c →
       c = 10%Z ∧
       ∃ i1 i2 j k,
         key = (var_name i1 j k, var_name i2 j k) ∧ i1 + 2 ≤ i2) ∧
    (∀ key c, Q !! key = Some c ↔
       Q1 !! key = Some c ∨ Q2 !! key = Some c ∨
       Q3 !! key = Some c ∨ Q4 !! key = Some c) ∧
    (∀ key c, Q !! key = Some c →
       c = (-1)%Z ∨ c = 2%Z ∨ c = 10%Z ∨ c = (-3)%Z).
Proof.
  exists (final sequence), (alone sequence T1), (alone sequence T2),
    (alone sequence T3), (alone sequence T4).
  assert (∀ t t', t ≠ t' → alone sequence t ##ₘ alone sequence t') as Hdisj.
  { intros t t' Hne. apply map_disjoint_spec. intros key c c' Hc Hc'.
    apply Hne. by eapply alone_disjoint. }
  split_and!; try (by apply Hdisj).
  - apply build_final.
  - apply (run_term_trace sequence T1).
  - apply (run_term_trace sequence T2).
  - apply (run_term_trace sequence T3).
  - apply (run_term_trace sequence T4).
  - intros a b c (t & p & _ & Heq & Hp)%final_lookup_Some.
    destruct p as [[[i j] k] [[i' j'] k']].
    assert (a = var_name i j k ∧ b = var_name i' j' k') as [-> ->].
    { unfold key_of, name in Heq. simpl in Heq. split; congruence. }
    assert (in_grid sequence (i, j, k) ∧ in_grid sequence (i', j', k') ∧
            (i, j, k) ≠ (i', j', k')) as (Hg & Hg' & Hne).
    { destruct t; unfold pair_of in Hp;
        unfold term1_pair, term2_pair, term3_pair, term4_pair in Hp;
        destruct Hp as (Hg & Hg' & Hrest);
        (split; [done|split; [done|]]); intros [= -> -> ->];
        unfold adjacent, manhattan in Hrest; cbn [fst snd] in Hrest;
        naive_solver lia. }
    split_and!.
    + intros Heq'. apply var_name_inj in Heq'. naive_solver.
    + exists (i, j, k). by rewrite variables_lookup, decide_True.
    + exists (i', j', k'). by rewrite variables_lookup, decide_True.
  - intros key c (-> & [[[i j] k] [[i' jp] kp]] & -> & Hp)%alone_lookup_Some.
    split; [done|]. unfold pair_of in Hp. pair_unfold.
    destruct Hp as (_ & _ & <- & _). by exists i, j, k, jp, kp.
  - intros key c (-> & [[[i j] k] [[i' jp] kp]] & -> & Hp)%alone_lookup_Some.
    split; [done|]. unfold pair_of in Hp. pair_unfold.
    destruct Hp as (_ & _ & -> & ?). by exists i, j, k, jp, kp.
  - intros key c (-> & [[[f j] k] [[fp jp] kp]] & -> & Hp)%alone_lookup_Some.
    split; [done|]. unfold pair_of in Hp. pair_unfold.
    destruct Hp as (_ & _ & ? & _ & ?). by exists f, j, k, fp, jp, kp.
  - intros key c (-> & [[[i1 j] k] [[i2 j'] k']] & -> & Hp)%alone_lookup_Some.
    split; [done|]. unfold pair_of in Hp. pair_unfold.
    destruct Hp as ((_&_&_&Hp1) & (_&_&_&Hp2) & ? & [= <- <-]).
    exists i1, i2, j, k. split; [done|]. unfold parity_ok in *. lia.
  - intros key c. rewrite final_lookup. split.
    + intros [[] ?]; tauto.
    + intros [?|[?|[?|?]]]; eauto.
  - intros key c (t & _ & -> & _)%final_lookup_Some. destruct t; simpl; tauto.
Qed.

(** C2, as stated, fails: for the sequence "HH" the connectivity loop writes
    -3 under the key (x_0_0_0, x_1_0_1), and nothing is ever written under
    the reversed key (x_1_0_1, x_0_0_0). *)
Lemma build_not_symmetric :
  ∃ Q, build "HH" = Ok Q ∧
       var_name 0 0 0 ≠ var_name 1 0 1 ∧
       coef Q (var_name 0 0 0, var_name 1 0 1) = (-3)%Z ∧
       coef Q (var_name 1 0 1, var_name 0 0 0) = 0%Z.
Proof.
  exists (final "HH"). split; [apply build_final|].
  split; [intros Heq%var_name_inj; lia|]. by vm_compute.
Qed.

(** C2, amended.  The dictionary [build] returns is symmetric on the pairs
    of variables of one bead: the two orders of such a pair hold the same
    entry.  Across beads it is directed: a key whose first variable belongs
    to a bead of higher index than its second is never present, so a pair of
    variables of two different beads is stored only with the lower bead
    first. *)
Theorem build_symmetric_within_bead (sequence : string) :
  ∃ Q, build sequence = Ok Q ∧
    (∀ i j k jp kp,
       Q !! (var_name i j k, var_name i jp kp)
       = Q !! (var_name i jp kp, var_name i j k)) ∧
    (∀ i i' j k j' k',
       i' < i → Q !! (var_name i j k, var_name i' j' k') = None).
Proof.
  exists (final sequence). split; [apply build_final|]. split.
  - assert (∀ i j k jp kp c,
              final sequence !! (var_name i j k, var_name i jp kp) = Some c →
              final sequence !! (var_name i jp kp, var_name i j k) = Some c)
      as Hswap.
    { intros i j k jp kp c (t & [[[a b] d] [[a' b'] d']] & -> & Heq & Hp)%final_lookup_Some.
      unfold key_of, name in Heq. cbn [fst snd] in Heq.
      apply var_pair_inj in Heq as [(<- & <- & <-) (<- & <- & <-)].
      destruct t; unfold pair_of in Hp; pair_unfold; try lia.
      apply (final_lookup_pair sequence T2 ((i, jp, kp), (i, j, k))).
      unfold pair_of. pair_unfold. naive_solver. }
    intros i j k jp kp. apply option_eq. intros c. split; apply Hswap.
  - intros i i' j k j' k' Hlt. apply eq_None_not_Some.
    intros [c (t & [[[a b] d] [[a' b'] d']] & -> & Heq & Hp)%final_lookup_Some].
    unfold key_of, name in Heq. cbn [fst snd] in Heq.
    apply var_pair_inj in Heq as [(<- & <- & <-) (<- & <- & <-)].
    destruct t; unfold pair_of in Hp; pair_unfold; lia.
Qed.

(** * Counting the variables *)

Lemma length_bind_sum {A B} (f : A → list B) (l : list A) :
  length (l ≫= f) = sum_list_with (λ x, length (f x)) l.
Proof.
  induction l as [|x l IH]; [done|].
  rewrite bind_cons, length_app, IH. done.
Qed.

(** Sites of the right parity in one row of the grid. *)
Lemma row_inner_length {B} (g : nat → B) i j n :
  length (seq 0 n ≫= λ k, if decide (parity_ok i j k) then [g k] else [])
  = (n + 1 - (i + j) mod 2) / 2.
Proof.
  induction n as [|n IH].
  - transitivity 0; [done|lia].
  - rewrite seq_S, bind_app, length_app, IH, Nat.add_0_l.
    cbn [mbind list_bind]. rewrite app_nil_r. unfold parity_ok.
    case_decide; cbn [length]; lia.
Qed.

(** Sites of the right parity in the first [m] rows of a grid [n] wide. *)
Lemma row_outer_length {B} (g : nat → nat → B) i n m :
  length (seq 0 m ≫= λ j,
            seq 0 n ≫= λ k, if decide (parity_ok i j k) then [g j k] else [])
  = ((m + 1 - i mod 2) / 2) * ((n + 1) / 2) + ((m + i mod 2) / 2) * (n / 2).
Proof.
  induction m as [|m IH].
  - transitivity 0; [done|lia].
  - rewrite seq_S, bind_app, length_app, IH, Nat.add_0_l.
    cbn [mbind list_bind]. rewrite app_nil_r, (row_inner_length (g m)).
    destruct (decide ((i + m) mod 2 = 0)) as [Hev|Hodd].
    + assert ((S m + 1 - i mod 2) / 2 = (m + 1 - i mod 2) / 2 + 1) as -> by lia.
      assert ((S m + i mod 2) / 2 = (m + i mod 2) / 2) as -> by lia.
      replace ((n + 1 - (i + m) mod 2) / 2) with ((n + 1) / 2) by lia. lia.
    + assert ((S m + 1 - i mod 2) / 2 = (m + 1 - i mod 2) / 2) as -> by lia.
      assert ((S m + i mod 2) / 2 = (m + i mod 2) / 2 + 1) as -> by lia.
      replace ((n + 1 - (i + m) mod 2) / 2) with (n / 2) by lia. lia.
Qed.

Lemma row_length width i :
  length (row width i)
  = if decide (i mod 2 = 0) then (width * width + 1) / 2 else width * width / 2.
Proof.
  unfold row, range. rewrite Nat.sub_0_r.
  rewrite (row_outer_length (λ j k, ((i, j, k), var_name i j k))).
  destruct (Nat.Even_or_Odd width) as [[h ->]|[h ->]]; case_decide.
  - replace ((2 * h + 1 - i mod 2) / 2) with h by lia.
    replace ((2 * h + 1) / 2) with h by lia.
    replace ((2 * h + i mod 2) / 2) with h by lia.
    replace (2 * h / 2) with h by lia. nia.
  - replace ((2 * h + 1 - i mod 2) / 2) with h by lia.
    replace ((2 * h + 1) / 2) with h by lia.
    replace ((2 * h + i mod 2) / 2) with h by lia.
    replace (2 * h / 2) with h by lia. nia.
  - replace ((2 * h + 1 + 1 - i mod 2) / 2) with (h + 1) by lia.
    replace ((2 * h + 1 + 1) / 2) with (h + 1) by lia.
    replace ((2 * h + 1 + i mod 2) / 2) with h by lia.
    replace ((2 * h + 1) / 2) with h by lia. nia.
  - replace ((2 * h + 1 + 1 - i mod 2) / 2) with h by lia.
    replace ((2 * h + 1 + 1) / 2) with (h + 1) by lia.
    replace ((2 * h + 1 + i mod 2) / 2) with (h + 1) by lia.
    replace ((2 * h + 1) / 2) with h by lia. nia.
Qed.

Lemma sum_list_with_ext_in {A} (f g : A → nat) (l : list A) :
  (∀ x, x ∈ l → f x = g x) → sum_list_with f l = sum_list_with g l.
Proof.
  induction l as [|x l IH]; intros Hfg; simpl; [done|].
  rewrite Hfg by apply list_elem_of_here.
  rewrite IH; [done|]. intros y Hy. by apply Hfg, list_elem_of_further.
Qed.

Section Counting.
Context (sequence : string).
Local Abbreviation N := (N sequence).
Local Abbreviation L := (L sequence).

Lemma variables_rows : variables sequence = dict_of_list (range 0 N ≫= row L).
Proof. done. Qed.

Lemma elem_of_row i kv :
  kv ∈ row L i ↔
  kv.1.1.1 = i ∧ kv.1.1.2 < L ∧ kv.1.2 < L ∧
  parity_ok i kv.1.1.2 kv.1.2 ∧ kv.2 = name kv.1.
Proof.
  destruct kv as [[[i' j] k] v]. unfold row, name. simpl. unfold_elem. split.
  - naive_solver lia.
  - intros (-> & ? & ? & ? & ->). exists j. split; [|lia].
    exists k. split; [done|lia].
Qed.

Lemma NoDup_row i : NoDup (row L i).
Proof.
  unfold row.
  apply (NoDup_bind_proj (λ kv, kv.1.1.2)); [apply NoDup_range|intros j _|nodup_proj].
  apply (NoDup_bind_proj (λ kv, kv.1.2)); [apply NoDup_range|intros k _|nodup_proj].
  apply NoDup_if_decide, NoDup_singleton.
Qed.

Lemma NoDup_rows : NoDup (range 0 N ≫= row L).
Proof.
  apply (NoDup_bind_proj (λ kv, kv.1.1.1)); [apply NoDup_range| |].
  - intros i _. apply NoDup_row.
  - intros i kv _ Hkv%elem_of_row. tauto.
Qed.

Lemma NoDup_keys (l : list (triple * string)) :
  (∀ kv, kv ∈ l → kv.2 = name kv.1) → NoDup l → NoDup l.*1.
Proof.
  intros Hl. apply NoDup_fmap_2_strong.
  intros [t v] [t' v'] Hx Hy Heq. simpl in Heq. subst t'.
  apply Hl in Hx, Hy. simpl in *. by subst.
Qed.

Lemma size_variables :
  size (variables sequence) = sum_list_with (λ i, length (row L i)) (range 0 N).
Proof.
  rewrite variables_rows, dict_of_list_size, length_bind_sum; [done|].
  apply NoDup_keys; [|apply NoDup_rows].
  intros kv. rewrite list_elem_of_bind. intros (i & Hkv%elem_of_row & _). tauto.
Qed.

Lemma bead_count_row i : i < N → bead_count sequence i = length (row L i).
Proof.
  intros Hi. unfold bead_count.
  rewrite <-(dict_of_list_size (row L i)).
  2:{ apply NoDup_keys; [|apply NoDup_row]. intros kv Hkv%elem_of_row. tauto. }
  f_equal. apply map_eq. intros t. apply option_eq. intros v.
  rewrite map_lookup_filter_Some, variables_lookup.
  rewrite (dict_of_list_lookup name) by (intros kv Hkv%elem_of_row; tauto).
  rewrite (decide_ext (t ∈ (row L i).*1)
             (t.1.1 = i ∧ t.1.2 < L ∧ t.2 < L ∧ parity_ok i t.1.2 t.2)).
  2:{ rewrite list_elem_of_fmap. setoid_rewrite elem_of_row. split.
      - intros (kv & -> & ?). tauto.
      - intros ?. exists (t, name t). simpl. tauto. }
  unfold in_grid. simpl. repeat case_decide; naive_solver.
Qed.
End Counting.

(** C3. The table [variables] holds the variable [x_i_j_k] under [(i, j, k)]
    exactly when [i < N], [j < L], [k < L] and [(j + k) mod 2 = i mod 2], and
    nothing under any other triple; different triples hold different
    variables.  Bead [i] therefore owns as many variables as the grid has
    sites of its parity, [ceil(L*L/2)] for even [i] and [floor(L*L/2)] for
    odd [i], and the size of the table is the sum of these counts over all
    beads. *)
Theorem variables_checkerboard (sequence : string) :
  (∀ i j k,
     variables sequence !! (i, j, k)
     = if decide (i < N sequence ∧ j < L sequence ∧ k < L sequence ∧
                  (j + k) mod 2 = i mod 2)
       then Some (var_name i j k) else None) ∧
  (∀ t t' v,
     variables sequence !! t = Some v → variables sequence !! t' = Some v →
     t = t') ∧
  (∀ i, i < N sequence →
     bead_count sequence i
     = if decide (i mod 2 = 0)
       then (L sequence * L sequence + 1) / 2
       else L sequence * L sequence / 2) ∧
  size (variables sequence)
  = sum_list_with (bead_count sequence) (range 0 (N sequence)).
Proof.
  split_and!.
  - intros i j k. rewrite variables_lookup. apply decide_ext.
    unfold in_grid, parity_ok. simpl. done.
  - intros t t' v. rewrite !variables_lookup.
    repeat case_decide; try done. intros Hv Hv'.
    apply (inj name). congruence.
  - intros i Hi. rewrite bead_count_row by done. apply row_length.
  - rewrite size_variables. apply sum_list_with_ext_in.
    intros i Hi%elem_of_range. symmetry. apply bead_count_row. lia.
Qed.

(** * The decoder *)

Lemma decode_item_var i j k v pos :
  decode_item (var_name i j k, v) pos
  = Ok (if decide (v = 1%Z) then <[i := (j, k)]> pos else pos).
Proof.
  unfold decode_item. cbn [fst snd]. case_decide; [|done].
  rewrite split_var_name. unfold list_index. cbn [lookup list_lookup].
  cbn [mbind result_bind]. rewrite !int_str_of_nat. done.
Qed.

Lemma item_inj i j k (v : Z) i' j' k' (v' : Z) :
  (var_name i j k, v) = (var_name i' j' k', v') →
  (i = i' ∧ j = j' ∧ k = k') ∧ v = v'.
Proof.
  intros Heq. split; [|exact (f_equal snd Heq)].
  apply var_name_inj. exact (f_equal fst Heq).
Qed.

(** On well-formed names the decoder never fails; a bead is decoded exactly
    when one of its variables is set, and then to the site of one of them. *)
Lemma positions_spec (sample : list (string * Z)) :
  (∀ item, item ∈ sample → ∃ i j k, item.1 = var_name i j k) →
  ∃ pos, positions sample = Ok pos ∧
    (∀ i j k, pos !! i = Some (j, k) → (var_name i j k, 1%Z) ∈ sample) ∧
    (∀ i j k, (var_name i j k, 1%Z) ∈ sample → is_Some (pos !! i)).
Proof.
  unfold positions. induction sample as [|[name v] sample IH] using rev_ind;
    intros Hwf.
  - exists ∅. split; [done|]. split.
    + intros i j k. by rewrite lookup_empty.
    + intros i j k Hin. by apply elem_of_nil in Hin.
  - destruct IH as (pos & Hpos & Hsound & Hcomplete).
    { intros item Hitem. apply Hwf, elem_of_app. by left. }
    destruct (Hwf (name, v)) as (i0 & j0 & k0 & Hname).
    { apply elem_of_app. right. apply list_elem_of_here. }
    simpl in Hname. subst name.
    rewrite for_app, Hpos. cbn [mbind result_bind for_].
    rewrite decode_item_var. cbn [mbind result_bind].
    eexists. split; [done|]. split.
    + intros i j k. rewrite elem_of_app, list_elem_of_singleton.
      case_decide as Hv.
      * subst v. destruct (decide (i0 = i)) as [->|Hne].
        -- rewrite lookup_insert_eq. intros [= -> ->]. by right.
        -- rewrite lookup_insert_ne by done. intros ?%Hsound. by left.
      * intros ?%Hsound. by left.
    + intros i j k. rewrite elem_of_app, list_elem_of_singleton.
      intros [Hin|Heq].
      * apply Hcomplete in Hin. case_decide; [|done].
        destruct (decide (i0 = i)) as [->|Hne].
        -- rewrite lookup_insert_eq. eauto.
        -- by rewrite lookup_insert_ne.
      * apply item_inj in Heq as [(-> & -> & ->) <-].
        rewrite decide_True by done. rewrite lookup_insert_eq. eauto.
Qed.

(** C9. Decoder round trip: on a sample whose names all have the form
    [x_i_j_k], the decoder returns a dictionary; whenever bead [i] has
    exactly one variable [x_i_j_k] set to 1, the dictionary maps [i] to
    [(j, k)], and it maps no bead to a site none of its set variables
    names. *)
Theorem positions_round_trip (sample : list (string * Z)) :
  (∀ item, item ∈ sample → ∃ i j k, item.1 = var_name i j k) →
  ∃ pos, positions sample = Ok pos ∧
    (∀ i j k,
       (var_name i j k, 1%Z) ∈ sample →
       (∀ j' k', (var_name i j' k', 1%Z) ∈ sample → (j', k') = (j, k)) →
       pos !! i = Some (j, k)) ∧
    (∀ i j k, pos !! i = Some (j, k) → (var_name i j k, 1%Z) ∈ sample).
Proof.
  intros Hwf. destruct (positions_spec sample Hwf) as (pos & Hpos & Hsound & Hcomplete).
  exists pos. split; [done|]. split; [|done].
  intros i j k Hin Huniq.
  destruct (Hcomplete i j k Hin) as [[j' k'] Hjk].
  rewrite Hjk. f_equal. apply Huniq. by apply Hsound.
Qed.

(** The round trip on a sample for two beads, one variable set for each. *)
Lemma positions_round_trip_witness :
  ∃ pos,
    positions [(var_name 0 0 0, 1%Z); (var_name 1 0 1, 1%Z);
               (var_name 1 1 0, 0%Z); (var_name 0 1 1, 0%Z)] = Ok pos ∧
    pos !! 0 = Some (0, 0) ∧ pos !! 1 = Some (0, 1).
Proof.
  destruct (positions_round_trip
              [(var_name 0 0 0, 1%Z); (var_name 1 0 1, 1%Z);
               (var_name 1 1 0, 0%Z); (var_name 0 1 1, 0%Z)])
    as (pos & Hpos & Hhit & _).
  - intros item Hitem. repeat (apply elem_of_cons in Hitem as [->|Hitem]);
      [by exists 0, 0, 0|by exists 1, 0, 1|by exists 1, 1, 0|by exists 0, 1, 1|].
    by apply elem_of_nil in Hitem.
  - exists pos. split; [done|]. split.
    + apply Hhit; [apply list_elem_of_here|].
      intros j' k' Hin.
      repeat (apply elem_of_cons in Hin as [Heq|Hin]);
        try (by apply elem_of_nil in Hin);
        apply item_inj in Heq as [(? & -> & ->) ?]; done.
    + apply Hhit; [apply list_elem_of_further, list_elem_of_here|].
      intros j' k' Hin.
      repeat (apply elem_of_cons in Hin as [Heq|Hin]);
        try (by apply elem_of_nil in Hin);
        apply item_inj in Heq as [(? & -> & ->) ?]; done.
Defined.

(** * Further properties of the builder *)

(** Neighbouring sites have opposite parity. *)
Lemma manhattan_parity j k jp kp :
  manhattan j k jp kp = 1%Z → (j + k) mod 2 ≠ (jp + kp) mod 2.
Proof. unfold manhattan. lia. Qed.

(** X1. Term 1 only ever couples beads at odd chain distance, hence at
    distance at least three: neighbouring sites have opposite parity, so two
    hydrophobic beads at even distance never receive an energy entry.  In
    particular the loop leaves the dictionary unchanged for every sequence of
    length at most three. *)
Theorem term1_odd_distance (sequence : string) (Q : gmap qkey Z) :
  ∃ Q', term1 sequence Q = Ok Q' ∧
    (∀ key, Q' !! key ≠ Q !! key →
       ∃ f j k fp jp kp,
         key = (var_name f j k, var_name fp jp kp) ∧
         f + 3 ≤ fp ∧ (fp - f) mod 2 = 1) ∧
    (∀ f j k fp jp kp,
       (fp - f) mod 2 = 0 →
       Q' !! (var_name f j k, var_name fp jp kp)
       = Q !! (var_name f j k, var_name fp jp kp)) ∧
    (N sequence ≤ 3 → Q' = Q).
Proof.
  eexists. split; [apply term1_trace|].
  destruct (apply_writes_spec (-1) Q (writes1 sequence) (term1_pair sequence))
    as (_ & Hch & Hout); [apply NoDup_writes1|apply elem_of_writes1|].
  assert (∀ p, term1_pair sequence p →
               p.1.1.1 + 3 ≤ p.2.1.1 ∧ (p.2.1.1 - p.1.1.1) mod 2 = 1) as Hodd.
  { intros [[[f j] k] [[fp jp] kp]] Hp. pair_unfold.
    destruct Hp as ((_&_&_&Hp1) & (_&_&_&Hp2) & ? & _ & Hadj).
    apply manhattan_parity in Hadj. unfold parity_ok in *. lia. }
  split_and!.
  - intros key [([[[f j] k] [[fp jp] kp]] & Hp & ->) _]%Hch.
    apply Hodd in Hp. exists f, j, k, fp, jp, kp. done.
  - intros f j k fp jp kp Hev. apply Hout.
    intros [[[a b] c] [[a' b'] c']] Hp%Hodd Heq.
    unfold key_of, name in Heq. cbn [fst snd] in *.
    apply var_pair_inj in Heq. lia.
  - intros HN. replace (writes1 sequence) with (@nil (triple * triple)); [done|].
    symmetry. apply elem_of_nil_inv. intros p Hp%elem_of_writes1.
    pose proof (Hodd p Hp) as [? _]. destruct Hp as (_ & (? & _) & _). lia.
Qed.

(** X2. [build] returns the empty dictionary exactly for the sequences of
    length at most one; from two beads on it always holds the connectivity
    entry between the first two beads. *)
Theorem build_empty_iff (sequence : string) :
  ∃ Q, build sequence = Ok Q ∧
    (Q = ∅ ↔ N sequence ≤ 1) ∧
    (2 ≤ N sequence → Q !! (var_name 0 0 0, var_name 1 0 1) = Some (-3)%Z).
Proof.
  exists (final sequence). split; [apply build_final|].
  assert (2 ≤ N sequence →
          final sequence !! (var_name 0 0 0, var_name 1 0 1) = Some (-3)%Z)
    as Hfirst.
  { intros HN. apply (final_lookup_pair sequence T4 ((0, 0, 0), (1, 0, 1))).
    unfold pair_of. pair_unfold. unfold L, parity_ok, manhattan.
    split_and!; (done || lia). }
  split; [|done]. split.
  - intros Hempty. destruct (decide (N sequence ≤ 1)) as [|Hge]; [done|].
    rewrite Hempty, lookup_empty in Hfirst. discriminate Hfirst. lia.
  - intros HN. apply map_eq. intros key. rewrite lookup_empty.
    apply eq_None_not_Some.
    intros [c (t & [[[i j] k] [[i' j'] k']] & _ & _ & Hp)%final_lookup_Some].
    destruct t; unfold pair_of in Hp; pair_unfold; unfold L in *; try lia.
    assert (j = j' ∧ k = k') as [-> ->] by lia. naive_solver.
Qed.

(** X3. The dictionary depends on the sequence only through its length and
    the set of positions that hold ['H']: every other character, valid or
    not, is treated alike. *)
Theorem build_H_positions (sequence sequence' : string) :
  String.length sequence = String.length sequence' →
  (∀ f, String.get f sequence = Some "H"%char ↔
        String.get f sequence' = Some "H"%char) →
  build sequence = build sequence'.
Proof.
  intros Hlen HH. rewrite !build_final. f_equal.
  assert (N sequence = N sequence') as HN by done.
  assert (L sequence = L sequence') as HL by (unfold L; by rewrite HN).
  assert (∀ s s', N s = N s' → L s = L s' →
            (∀ f, String.get f s = Some "H"%char ↔
                  String.get f s' = Some "H"%char) →
            ∀ key c, final s !! key = Some c → final s' !! key = Some c) as Hle.
  { intros s s' HN' HL' HH' key c (t & p & -> & -> & Hp)%final_lookup_Some.
    apply final_lookup_pair.
    destruct t; unfold pair_of in *; pair_unfold;
      rewrite <-?HN', <-?HL', <-?HH'; done. }
  apply map_eq. intros key. apply option_eq. intros c. split.
  - by apply Hle.
  - apply Hle; [done|done|]. intros f. by rewrite HH.
Qed.

Lemma build_H_positions_witness : build "HPXH" = build "HZPH".
Proof.
  apply build_H_positions; [reflexivity|].
  intros [|[|[|[|f]]]]; simpl; split; intros Heq; (done || discriminate Heq).
Defined.

(** X4. Every admissible placement of a bead that has a successor has at
    least one rewarded continuation: Term 4 writes -3 under at least one key
    that starts with its variable, so the test on the list of next positions
    never skips a site. *)
Theorem term4_has_continuation (sequence : string) (Q : gmap qkey Z) :
  ∃ Q', term4 sequence Q = Ok Q' ∧
    ∀ i j k,
      i < N sequence - 1 → j < L sequence → k < L sequence → parity_ok i j k →
      ∃ jp kp,
        jp < L sequence ∧ kp < L sequence ∧ manhattan j k jp kp = 1%Z ∧
        Q' !! (var_name i j k, var_name (i + 1) jp kp)
        = Some (coef Q (var_name i j k, var_name (i + 1) jp kp) + -3)%Z.
Proof.
  eexists. split; [apply term4_trace|].
  destruct (apply_writes_spec (-3) Q (writes4 sequence) (term4_pair sequence))
    as (Hin & _ & _); [apply NoDup_writes4|apply elem_of_writes4|].
  intros i j k Hi Hj Hk Hpar.
  assert (2 ≤ L sequence) by (unfold L; lia).
  destruct (decide (j + 1 < L sequence)) as [Hlt|Hge].
  - exists (j + 1), k. split_and!; [done|done|unfold manhattan; lia|].
    apply (Hin ((i, j, k), (i + 1, j + 1, k))). pair_unfold.
    unfold parity_ok, manhattan in *. split_and!; (done || lia).
  - exists (j - 1), k. split_and!; [lia|done|unfold manhattan; lia|].
    apply (Hin ((i, j, k), (i + 1, j - 1, k))). pair_unfold.
    unfold parity_ok, manhattan in *. split_and!; (done || lia).
Qed.

(** X5. The size of the table in closed form: the beads of even index own
    [ceil(L*L/2)] variables each, those of odd index [floor(L*L/2)]. *)
Theorem variables_size_closed (sequence : string) :
  size (variables sequence)
  = (N sequence + 1) / 2 * ((L sequence * L sequence + 1) / 2)
    + N sequence / 2 * (L sequence * L sequence / 2).
Proof.
  rewrite size_variables. unfold range. rewrite Nat.sub_0_r.
  generalize (L sequence) as w. generalize (N sequence) as n. intros n w.
  induction n as [|n IH]; [done|].
  rewrite seq_S, sum_list_with_app, IH. cbn [sum_list_with].
  rewrite Nat.add_0_l, Nat.add_0_r, row_length.
  destruct (Nat.Even_or_Odd n) as [[h ->]|[h ->]].
  - rewrite decide_True by lia.
    replace ((S (2 * h) + 1) / 2) with (h + 1) by lia.
    replace (S (2 * h) / 2) with h by lia.
    replace ((2 * h + 1) / 2) with h by lia.
    replace (2 * h / 2) with h by lia. lia.
  - rewrite decide_False by lia.
    replace ((S (2 * h + 1) + 1) / 2) with (h + 1) by lia.
    replace (S (2 * h + 1) / 2) with (h + 1) by lia.
    replace ((2 * h + 1 + 1) / 2) with (h + 1) by lia.
    replace ((2 * h + 1) / 2) with h by lia. lia.
Qed.

(** * Further properties of the decoder *)

(** X6. Names round-trip: splitting the name the builder gives to
    [(i, j, k)] at the underscores yields four parts, and parsing parts 1, 2
    and 3 as the decoder does gives back [i], [j] and [k]. *)
Theorem name_round_trip (i j k : nat) :
  let parts := split "_" (var_name i j k) in
  length parts = 4 ∧
  (p ← list_index parts 1; int p) = Ok i ∧
  (p ← list_index parts 2; int p) = Ok j ∧
  (p ← list_index parts 3; int p) = Ok k.
Proof.
  cbn zeta. rewrite split_var_name. unfold list_index.
  cbn [lookup list_lookup mbind result_bind length].
  by rewrite !int_str_of_nat.
Qed.

Lemma for_decode_filter (l : list (string * Z)) pos :
  for_ l decode_item pos
  = for_ (filter (λ item, item.2 = 1%Z) l) decode_item pos.
Proof.
  revert pos. induction l as [|item l IH]; intros pos; [done|].
  rewrite filter_cons. case_decide as Hv; cbn [for_].
  - destruct (decode_item item pos); cbn [mbind result_bind]; [apply IH|done].
  - assert (decode_item item pos = Ok pos) as ->
      by (unfold decode_item; cbn zeta; by rewrite decide_False).
    cbn [mbind result_bind]. apply IH.
Qed.

(** X7. Items whose value is not 1 are never looked at: the decoder returns
    the same result, success or exception, on the sample restricted to the
    items set to 1, whatever the names of the other items are. *)
Theorem positions_ignores_unset (sample : list (string * Z)) :
  positions sample = positions (filter (λ item, item.2 = 1%Z) sample).
Proof. apply for_decode_filter. Qed.

(** Decoding onto a dictionary that already holds entries. *)
Lemma for_decode_union (l : list (string * Z)) (pos0 : gmap nat (nat * nat)) :
  (∀ item, item ∈ l → ∃ i j k, item.1 = var_name i j k) →
  ∃ pos, positions l = Ok pos ∧ for_ l decode_item pos0 = Ok (pos ∪ pos0).
Proof.
  unfold positions. induction l as [|[name v] l IH] using rev_ind; intros Hwf.
  - exists ∅. split; [done|]. by rewrite (left_id_L ∅ (∪)).
  - destruct IH as (pos & Hpos & Hfrom).
    { intros item Hitem. apply Hwf, elem_of_app. by left. }
    destruct (Hwf (name, v)) as (i & j & k & Hname).
    { apply elem_of_app. right. apply list_elem_of_here. }
    cbn [fst] in Hname. subst name.
    rewrite !for_app, Hpos, Hfrom. cbn [mbind result_bind for_].
    rewrite !decode_item_var. cbn [mbind result_bind].
    eexists. split; [done|]. case_decide; [|done].
    by rewrite insert_union_l.
Qed.

(** X8. Last write wins: when several variables of one bead are set to 1,
    the bead is decoded to the site named by the one that comes last in the
    iteration order of the sample. *)
Theorem positions_last_write_wins (l1 l2 : list (string * Z)) (i j k : nat) :
  (∀ item, item ∈ (l1 ++ l2)%list → ∃ i' j' k', item.1 = var_name i' j' k') →
  (∀ j' k', (var_name i j' k', 1%Z) ∉ l2) →
  ∃ pos, positions (l1 ++ (var_name i j k, 1%Z) :: l2)%list = Ok pos ∧
         pos !! i = Some (j, k).
Proof.
  intros Hwf Hlast.
  destruct (positions_spec l1) as (pos1 & Hpos1 & _).
  { intros item Hitem. apply Hwf, elem_of_app. by left. }
  destruct (for_decode_union l2 (<[i := (j, k)]> pos1)) as (pos2 & Hpos2 & Hfrom).
  { intros item Hitem. apply Hwf, elem_of_app. by right. }
  destruct (positions_spec l2) as (pos2' & Hpos2' & Hsound & _).
  { intros item Hitem. apply Hwf, elem_of_app. by right. }
  rewrite Hpos2 in Hpos2'. injection Hpos2' as <-.
  exists (pos2 ∪ <[i := (j, k)]> pos1). split.
  - unfold positions in *. rewrite for_app, Hpos1. cbn [mbind result_bind for_].
    rewrite decode_item_var, decide_True by done. cbn [mbind result_bind].
    done.
  - apply lookup_union_Some_raw. right. split; [|apply lookup_insert_eq].
    apply eq_None_not_Some. intros [[j' k'] Hjk].
    by apply (Hlast j' k'), Hsound.
Qed.

Lemma positions_last_write_wins_witness :
  ∃ pos,
    positions ([(var_name 0 0 0, 1%Z)]
               ++ (var_name 0 1 1, 1%Z) :: [(var_name 1 0 1, 1%Z)])%list
    = Ok pos ∧
    pos !! 0 = Some (1, 1).
Proof.
  apply (positions_last_write_wins
           [(var_name 0 0 0, 1%Z)] [(var_name 1 0 1, 1%Z)] 0 1 1).
  - intros item Hitem. repeat (apply elem_of_cons in Hitem as [->|Hitem]);
      [by exists 0, 0, 0|by exists 1, 0, 1|].
    by apply elem_of_nil in Hitem.
  - intros j' k' Hin. apply list_elem_of_singleton in Hin.
    apply item_inj in Hin as [(? & _) _]. lia.
Defined.

(** A name without underscore is a single part. *)
Lemma split_no_sep (name : string) :
  (∀ n, String.get n name ≠ Some "_"%char) → split "_" name = [name].
Proof.
  induction name as [|c name IH]; intros Hno; [done|].
  cbn [split]. rewrite decide_False by (intros ->; by apply (Hno 0)).
  rewrite IH; [done|]. intros n. apply (Hno (S n)).
Qed.

(** X9. A variable set to 1 whose name contains no underscore makes the
    decoder raise [IndexError] (there is no part 1 to read), whatever comes
    after it in the sample. *)
Theorem positions_IndexError (l1 l2 : list (string * Z)) (name : string) pos1 :
  positions l1 = Ok pos1 →
  (∀ n, String.get n name ≠ Some "_"%char) →
  positions (l1 ++ (name, 1%Z) :: l2)%list = Raise IndexError.
Proof.
  intros Hpos1 Hno. unfold positions in *.
  rewrite for_app, Hpos1. cbn [mbind result_bind for_].
  unfold decode_item. cbn zeta. cbn [fst snd]. rewrite decide_True by done.
  by rewrite split_no_sep.
Qed.

Lemma positions_IndexError_witness :
  positions ([(var_name 0 0 0, 1%Z)]
             ++ ("q7", 1%Z) :: [(var_name 1 0 1, 1%Z)])%list
  = Raise IndexError.
Proof.
  apply (positions_IndexError _ _ _ {[0 := (0, 0)]}).
  - by vm_compute.
  - intros [|[|n]]; simpl; discriminate.
Defined.

(** X10. Decoded coordinates lie on the lattice: when every item set to 1
    carries a name of the table [variables], the decoder succeeds and maps
    beads of the chain only, each to a site of the grid of the parity of the
    bead. *)
Theorem positions_on_lattice (sequence : string) (sample : list (string * Z)) :
  (∀ item, item ∈ sample → item.2 = 1%Z →
     ∃ t, variables sequence !! t = Some item.1) →
  ∃ pos, positions sample = Ok pos ∧
    ∀ i j k, pos !! i = Some (j, k) →
      i < N sequence ∧ j < L sequence ∧ k < L sequence ∧ parity_ok i j k.
Proof.
  intros Htable. unfold positions. rewrite for_decode_filter.
  destruct (positions_spec (filter (λ item, item.2 = 1%Z) sample))
    as (pos & Hpos & Hsound & _).
  { intros item [Hone Hin]%list_elem_of_filter.
    destruct (Htable item Hin Hone) as ([[i j] k] & Ht).
    rewrite variables_lookup in Ht. case_decide; [|done].
    apply (inj Some) in Ht. by exists i, j, k. }
  exists pos. split; [done|]. intros i j k Hjk.
  apply Hsound, list_elem_of_filter in Hjk as [_ Hin].
  destruct (Htable _ Hin eq_refl) as ([[i' j'] k'] & Ht). cbn [fst] in Ht.
  rewrite variables_lookup in Ht. case_decide as Hg; [|done].
  apply (inj Some) in Ht. unfold name in Ht. cbn [fst snd] in Ht.
  apply var_name_inj in Ht as (-> & -> & ->). exact Hg.
Qed.

Lemma positions_on_lattice_witness :
  ∃ pos,
    positions [(var_name 0 0 0, 1%Z); ("junk", 0%Z); (var_name 1 0 1, 1%Z)]
    = Ok pos ∧
    ∀ i j k, pos !! i = Some (j, k) →
      i < N "HP" ∧ j < L "HP" ∧ k < L "HP" ∧ parity_ok i j k.
Proof.
  apply (positions_on_lattice "HP").
  intros item Hitem Hone.
  repeat (apply elem_of_cons in Hitem as [->|Hitem]).
  - by exists (0, 0, 0).
  - discriminate Hone.
  - by exists (1, 0, 1).
  - by apply elem_of_nil in Hitem.
Defined.

(** * The plot of the chain *)

Lemma for_log {A C} (w : A → list C) (l : list A)
    (body : A → list C → result (list C)) (s : list C) :
  (∀ x s, x ∈ l → body x s = Ok (s ++ w x)%list) →
  for_ l body s = Ok (s ++ l ≫= w)%list.
Proof.
  revert s. induction l as [|x l IH]; intros s Hbody.
  - by rewrite app_nil_r.
  - rewrite bind_cons. cbn [for_]. rewrite Hbody by apply list_elem_of_here.
    cbn [mbind result_bind]. rewrite IH, app_assoc; [done|].
    intros y s' Hy. apply Hbody. by apply list_elem_of_further.
Qed.

Lemma for_Ok_inv {A S} (l : list A) (body : A → S → result S) s s' :
  for_ l body s = Ok s' → ∀ x, x ∈ l → ∃ s1 s2, body x s1 = Ok s2.
Proof.
  revert s. induction l as [|y l IH]; intros s Hfor x Hx.
  - by apply elem_of_nil in Hx.
  - cbn [for_] in Hfor. destruct (body y s) as [s1|e] eqn:Hy; [|done].
    apply elem_of_cons in Hx as [->|Hx]; [eauto|]. by eapply IH.
Qed.

Lemma colors_lookup c color :
  colors !! c = Some color ↔
  (c = "H"%char ∧ color = "blue") ∨ (c = "P"%char ∧ color = "red").
Proof.
  unfold colors, dict_of_list. cbn [foldl fst snd].
  rewrite lookup_insert. case_decide as HP.
  - subst c. split; [intros [= <-]; by right|]. by intros [[? _]|[_ ->]].
  - rewrite lookup_insert. case_decide as HH.
    + subst c. split; [intros [= <-]; by left|]. by intros [[_ ->]|[? _]].
    + rewrite lookup_empty. split; [done|]. by intros [[-> _]|[-> _]].
Qed.

(** The calls made for a bead that can be drawn. *)
Lemma plot_bead_ok sequence (positions : gmap nat (nat * nat)) index calls
    j k c color pj pk :
  positions !! index = Some (j, k) →
  String.get index sequence = Some c →
  colors !! c = Some color →
  positions !! (index - 1) = Some (pj, pk) →
  plot_bead sequence positions index calls
  = Ok (calls ++ [PlotPoint j k color; Text j k (str_of_nat index)]
              ++ if decide (0 < index) then [PlotLine pj j pk k] else [])%list.
Proof.
  intros Hjk Hc Hcol Hprev. unfold plot_bead, getitem, str_index.
  rewrite Hjk, Hc. cbn [mbind result_bind]. rewrite Hcol.
  cbn [mbind result_bind fst snd]. case_decide.
  - rewrite Hprev. cbn [mbind result_bind fst snd]. by rewrite <-app_assoc.
  - by rewrite app_nil_r.
Qed.

(** A bead the loop can draw. *)
Lemma plot_bead_drawable sequence (positions : gmap nat (nat * nat)) index calls :
  is_Some (positions !! index) →
  is_Some (positions !! (index - 1)) →
  String.get index sequence = Some "H"%char ∨
  String.get index sequence = Some "P"%char →
  plot_bead sequence positions index calls
  = Ok (calls ++ bead_calls sequence positions index)%list ∧
  length (bead_calls sequence positions index)
  = if decide (0 < index) then 3 else 2.
Proof.
  intros [[j k] Hjk] [[pj pk] Hprev] Hc.
  assert (∃ c color, String.get index sequence = Some c ∧
                     colors !! c = Some color) as (c & color & Hget & Hcol).
  { destruct Hc as [Hc|Hc]; eexists _, _; (split; [exact Hc|]);
      apply colors_lookup; eauto. }
  rewrite (plot_bead_ok _ _ _ _ j k c color pj pk) by done.
  unfold bead_calls. rewrite Hjk, Hprev, Hget. cbn [mbind option_bind].
  rewrite Hcol. split; [done|]. by case_decide.
Qed.

Lemma plot_chain_log (sequence : string) (positions : gmap nat (nat * nat)) :
  (∀ index, index < size positions →
     is_Some (positions !! index) ∧
     (String.get index sequence = Some "H"%char ∨
      String.get index sequence = Some "P"%char)) →
  plot_chain sequence positions
  = Ok (range 0 (size positions) ≫= bead_calls sequence positions).
Proof.
  intros Hall. unfold plot_chain.
  rewrite (for_log (bead_calls sequence positions)); [done|].
  intros index calls Hindex%elem_of_range.
  apply plot_bead_drawable; [apply Hall; lia|apply Hall; lia|apply Hall; lia].
Qed.

(** X11. The plotting loop completes exactly when the decoded dictionary
    has an entry for every index below its size (the decoded beads are
    0, 1, ..., with no gap) and each of these positions of the sequence
    holds ['H'] or ['P']. *)
Theorem plot_chain_succeeds_iff (sequence : string)
    (positions : gmap nat (nat * nat)) :
  (∃ calls, plot_chain sequence positions = Ok calls) ↔
  ∀ index, index < size positions →
    is_Some (positions !! index) ∧
    (String.get index sequence = Some "H"%char ∨
     String.get index sequence = Some "P"%char).
Proof.
  split.
  - unfold plot_chain. intros [calls Hcalls] index Hindex.
    destruct (for_Ok_inv _ _ _ _ Hcalls index) as (s1 & s2 & Hbead).
    { apply elem_of_range. lia. }
    unfold plot_bead, getitem, str_index in Hbead.
    destruct (positions !! index) as [jk|]; [|done]. split; [done|].
    cbn [mbind result_bind] in Hbead.
    destruct (String.get index sequence) as [c|]; [|done].
    cbn [mbind result_bind] in Hbead.
    destruct (colors !! c) as [color|] eqn:Hcol; [|done].
    apply colors_lookup in Hcol as [[-> _]|[-> _]]; auto.
  - intros Hall. eexists. by apply plot_chain_log.
Qed.

Lemma bind_ext_in {A B} (f g : A → list B) (l : list A) :
  (∀ x, x ∈ l → f x = g x) → l ≫= f = l ≫= g.
Proof.
  induction l as [|x l IH]; intros Hfg; [done|].
  rewrite !bind_cons, Hfg by apply list_elem_of_here.
  rewrite IH; [done|]. intros y Hy. by apply Hfg, list_elem_of_further.
Qed.

Lemma sum_bead_lengths (f : nat → nat) n :
  (∀ index, index < n → f index = if decide (0 < index) then 3 else 2) →
  sum_list_with f (seq 0 n) = 3 * n - 1.
Proof.
  induction n as [|n IH]; intros Hf; [done|].
  rewrite seq_S, sum_list_with_app, IH by (intros; apply Hf; lia).
  cbn [sum_list_with]. rewrite Hf by lia. case_decide; lia.
Qed.

(** X12. When it completes, the loop makes, bead after bead in index order:
    a point at the decoded site, blue for ['H'] and red for ['P'], the label
    of the bead, and from the second bead on a segment from the site of the
    previous bead; [3 * n - 1] calls for [n] decoded beads. *)
Theorem plot_chain_draws (sequence : string) (positions : gmap nat (nat * nat)) :
  (∀ index, index < size positions →
     is_Some (positions !! index) ∧
     (String.get index sequence = Some "H"%char ∨
      String.get index sequence = Some "P"%char)) →
  ∃ calls,
    plot_chain sequence positions = Ok calls ∧
    length calls = 3 * size positions - 1 ∧
    calls
    = range 0 (size positions) ≫= λ index,
        match positions !! index, positions !! (index - 1) with
        | Some (j, k), Some (prev_j, prev_k) =>
            ([PlotPoint j k
                (if decide (String.get index sequence = Some "H"%char)
                 then "blue" else "red");
              Text j k (str_of_nat index)]
             ++ if decide (0 < index) then [PlotLine prev_j j prev_k k]
                else [])%list
        | _, _ => []
        end.
Proof.
  intros Hall. eexists. split; [by apply plot_chain_log|]. split.
  - rewrite length_bind_sum. unfold range. rewrite Nat.sub_0_r.
    apply sum_bead_lengths. intros index Hindex.
    apply (plot_bead_drawable sequence positions index []);
      [apply Hall; lia|apply Hall; lia|apply Hall; lia].
  - apply bind_ext_in. intros index Hlt%elem_of_range. unfold bead_calls.
    destruct (Hall index) as [[[j k] ->] Hc]; [lia|].
    destruct (Hall (index - 1)) as [[[pj pk] ->] _]; [lia|].
    destruct Hc as [Hc|Hc]; rewrite Hc; cbn [mbind option_bind fst snd].
    + rewrite (proj2 (colors_lookup _ "blue")) by auto.
      by destruct (decide (Some "H"%char = Some "H"%char)).
    + rewrite (proj2 (colors_lookup _ "red")) by auto.
      by destruct (decide (Some "P"%char = Some "H"%char)).
Qed.

Lemma plot_chain_draws_witness :
  ∃ calls,
    plot_chain "HP" (<[1 := (0, 1)]> {[0 := (0, 0)]}) = Ok calls ∧
    length calls = 5.
Proof.
  destruct (plot_chain_draws "HP" (<[1 := (0, 1)]> {[0 := (0, 0)]}))
    as (calls & Hcalls & Hlen & _).
  - assert (size (<[1 := (0, 1)]> ({[0 := (0, 0)]} : gmap nat (nat * nat))) = 2)
      as -> by (by vm_compute).
    intros [|[|index]] Hindex; [| |lia].
    + split; [eexists; vm_compute; reflexivity|by left].
    + split; [eexists; vm_compute; reflexivity|by right].
  - exists calls. split; [done|]. rewrite Hlen. by vm_compute.
Defined.

(** X13. Where the plotting loop stops: if the beads below [m] can all be
    drawn and bead [m] cannot, the loop raises [KeyError] when [m] has no
    decoded position or its residue is neither ['H'] nor ['P'], and
    [IndexError] when [m] lies beyond the end of the sequence. *)
Theorem plot_chain_first_failure (sequence : string)
    (positions : gmap nat (nat * nat)) (m : nat) :
  m < size positions →
  (∀ index, index < m →
     is_Some (positions !! index) ∧
     (String.get index sequence = Some "H"%char ∨
      String.get index sequence = Some "P"%char)) →
  (positions !! m = None →
     plot_chain sequence positions = Raise KeyError) ∧
  (is_Some (positions !! m) → String.get m sequence = None →
     plot_chain sequence positions = Raise IndexError) ∧
  (is_Some (positions !! m) →
     ∀ c, String.get m sequence = Some c → c ≠ "H"%char → c ≠ "P"%char →
     plot_chain sequence positions = Raise KeyError).
Proof.
  intros Hm Hbelow.
  assert (∀ e, (∀ calls, plot_bead sequence positions m calls = Raise e) →
               plot_chain sequence positions = Raise e) as Hstop.
  { intros e He. unfold plot_chain, range.
    replace (size positions - 0) with (m + S (size positions - S m)) by lia.
    rewrite seq_app, for_app, Nat.add_0_l.
    rewrite (for_log (bead_calls sequence positions)).
    - cbn [mbind result_bind seq for_]. by rewrite He.
    - intros index calls Hindex%elem_of_seq.
      apply plot_bead_drawable;
        [apply Hbelow; lia|apply Hbelow; lia|apply Hbelow; lia]. }
  split_and!.
  - intros Hnone. apply Hstop. intros calls.
    unfold plot_bead, getitem. by rewrite Hnone.
  - intros [jk Hjk] Hget. apply Hstop. intros calls.
    unfold plot_bead, getitem, str_index. by rewrite Hjk, Hget.
  - intros [jk Hjk] c Hget HH HP. apply Hstop. intros calls.
    unfold plot_bead, getitem, str_index. rewrite Hjk, Hget.
    cbn [mbind result_bind].
    destruct (colors !! c) as [color|] eqn:Hcol; [|done].
    apply colors_lookup in Hcol as [[-> _]|[-> _]]; done.
Qed.

Lemma plot_chain_first_failure_witness :
  plot_chain "HX" (<[1 := (0, 1)]> {[0 := (0, 0)]}) = Raise KeyError ∧
  plot_chain "H" (<[1 := (0, 1)]> {[0 := (0, 0)]}) = Raise IndexError ∧
  plot_chain "HP" (<[2 := (0, 0)]> {[0 := (0, 0)]}) = Raise KeyError.
Proof.
  assert (∀ s, ∀ index, index < 1 →
            is_Some ((<[1 := (0, 1)]> {[0 := (0, 0)]} : gmap nat (nat * nat))
                       !! index) ∧
            (String.get index (String "H" s) = Some "H"%char ∨
             String.get index (String "H" s) = Some "P"%char)) as Hbelow.
  { intros s [|index] Hindex; [|lia]. split; [eexists; vm_compute; reflexivity|by left]. }
  split_and!.
  - destruct (plot_chain_first_failure "HX"
                (<[1 := (0, 1)]> {[0 := (0, 0)]}) 1) as (_ & _ & Hchar).
    + by vm_compute.
    + apply Hbelow.
    + apply (Hchar ltac:(eexists; vm_compute; reflexivity) "X"%char); done.
  - destruct (plot_chain_first_failure "H"
                (<[1 := (0, 1)]> {[0 := (0, 0)]}) 1) as (_ & Hend & _).
    + by vm_compute.
    + apply Hbelow.
    + apply Hend; [eexists; vm_compute; reflexivity|done].
  - destruct (plot_chain_first_failure "HP"
                (<[2 := (0, 0)]> {[0 := (0, 0)]}) 1) as (Hgap & _ & _).
    + by vm_compute.
    + intros [|index] Hindex; [|lia]. split; [eexists; vm_compute; reflexivity|by left].
    + apply Hgap. by vm_compute.
Defined.

(** X14. Decoding and plotting compose: for a sequence over ['H'] and
    ['P'], a sample in which every item set to 1 carries a name of the table
    and every bead of the chain has a variable set to 1 is decoded to one
    position per bead, and the plot of the decoded chain completes with a
    point and a label per bead and a segment per chain link. *)
Theorem decode_then_plot (sequence : string) (sample : list (string * Z)) :
  (∀ item, item ∈ sample → item.2 = 1%Z →
     ∃ t, variables sequence !! t = Some item.1) →
  (∀ i, i < N sequence → ∃ j k, (var_name i j k, 1%Z) ∈ sample) →
  (∀ i, i < N sequence →
     String.get i sequence = Some "H"%char ∨
     String.get i sequence = Some "P"%char) →
  ∃ pos calls,
    positions sample = Ok pos ∧
    size pos = N sequence ∧
    plot_chain sequence pos = Ok calls ∧
    length calls = 3 * N sequence - 1.
Proof.
  intros Htable Hall HHP.
  assert (∃ pos, positions sample = Ok pos ∧
            ∀ i, is_Some (pos !! i) ↔ i < N sequence) as (pos & Hpos & Hdom).
  { unfold positions. rewrite for_decode_filter.
    destruct (positions_spec (filter (λ item, item.2 = 1%Z) sample))
      as (pos & Hpos & Hsound & Hcomplete).
    { intros item [Hone Hin]%list_elem_of_filter.
      destruct (Htable item Hin Hone) as ([[i j] k] & Ht).
      rewrite variables_lookup in Ht. case_decide; [|done].
      apply (inj Some) in Ht. by exists i, j, k. }
    exists pos. split; [done|]. intros i. split.
    - intros [[j k] Hjk].
      apply Hsound, list_elem_of_filter in Hjk as [_ Hin].
      destruct (Htable _ Hin eq_refl) as ([[i' j'] k'] & Ht). cbn [fst] in Ht.
      rewrite variables_lookup in Ht. case_decide as Hg; [|done].
      apply (inj Some) in Ht. unfold name in Ht. cbn [fst snd] in Ht.
      apply var_name_inj in Ht as (-> & -> & ->). apply Hg.
    - intros Hi. destruct (Hall i Hi) as (j & k & Hin).
      apply (Hcomplete i j k). by apply list_elem_of_filter. }
  assert (size pos = N sequence) as Hsize.
  { rewrite <-size_dom, <-(size_set_seq (C := gset nat) 0 (N sequence)).
    f_equal. apply set_eq. intros i.
    rewrite elem_of_dom, Hdom, elem_of_set_seq. lia. }
  exists pos, (range 0 (size pos) ≫= bead_calls sequence pos).
  split_and!; [done|done|..].
  - apply plot_chain_log. rewrite Hsize. intros index Hindex.
    split; [by apply Hdom|by apply HHP].
  - rewrite length_bind_sum, Hsize. unfold range. rewrite Nat.sub_0_r.
    apply sum_bead_lengths. intros index Hindex.
    apply (plot_bead_drawable sequence pos index []);
      [apply Hdom; lia|apply Hdom; lia|apply HHP; lia].
Qed.

Lemma decode_then_plot_witness :
  ∃ pos calls,
    positions [(var_name 0 0 0, 1%Z); (var_name 0 1 1, 0%Z);
               (var_name 1 0 1, 1%Z); (var_name 1 1 0, 0%Z)] = Ok pos ∧
    size pos = N "HP" ∧
    plot_chain "HP" pos = Ok calls ∧
    length calls = 3 * N "HP" - 1.
Proof.
  apply (decode_then_plot "HP").
  - intros item Hitem Hone.
    repeat (apply elem_of_cons in Hitem as [->|Hitem]);
      try discriminate Hone.
    + by exists (0, 0, 0).
    + by exists (1, 0, 1).
    + by apply elem_of_nil in Hitem.
  - intros [|[|i]] Hi.
    + exists 0, 0. apply list_elem_of_here.
    + exists 0, 1. do 2 apply list_elem_of_further. apply list_elem_of_here.
    + vm_compute in Hi. lia.
  - intros [|[|i]] Hi; [by left|by right|]. vm_compute in Hi. lia.
Defined.

(** Beads of the parity of a site among the first [n]. *)
Lemma candidates_length_upto j k n :
  length (filter (λ i, parity_ok i j k) (seq 0 n)) = (n + 1 - (j + k) mod 2) / 2.
Proof.
  induction n as [|n IH].
  - transitivity 0; [done|lia].
  - rewrite seq_S, filter_app, length_app, IH, Nat.add_0_l.
    rewrite filter_cons, filter_nil. unfold parity_ok.
    case_decide; cbn [length]; lia.
Qed.

(** X15. The grid is never too small by counting: the beads that compete
    for the sites of one parity (the list [beads] of the self-avoidance
    loop) are never more than the variables each of them owns, that is, than
    the sites of that parity; in particular every bead of the chain owns at
    least one variable. *)
Theorem enough_sites (sequence : string) (i j k : nat) :
  i < N sequence → parity_ok i j k →
  1 ≤ length (candidates sequence j k) ∧
  length (candidates sequence j k) ≤ bead_count sequence i.
Proof.
  intros Hi Hpar. rewrite bead_count_row, row_length by done.
  unfold candidates, range. rewrite Nat.sub_0_r, candidates_length_upto.
  unfold parity_ok in Hpar.
  assert (N sequence ≤ L sequence * L sequence) as Hfit.
  { unfold L. generalize (N sequence). intros n.
    assert (n ≤ 2 * (n / 2) + 1) by lia. nia. }
  revert Hfit. generalize (L sequence * L sequence). intros sites Hfit.
  case_decide; lia.
Qed.

Lemma enough_sites_witness :
  1 ≤ length (candidates "HPHPH" 0 0) ∧
  length (candidates "HPHPH" 0 0) ≤ bead_count "HPHPH" 2.
Proof. apply enough_sites; [vm_compute; lia|reflexivity]. Defined.

(** * Concrete runs *)

(** "HH": two beads on a 2 x 2 grid; eight entries, four from Term 2 and
    four from Term 4, none from Terms 1 and 3. *)
Example build_HH :
  ∃ Q, build "HH" = Ok Q ∧ size Q = 8 ∧
       Q !! (var_name 0 0 0, var_name 0 1 1) = Some 2%Z ∧
       Q !! (var_name 0 1 1, var_name 0 0 0) = Some 2%Z ∧
       Q !! (var_name 0 0 0, var_name 1 1 0) = Some (-3)%Z ∧
       Q !! (var_name 0 1 1, var_name 1 0 1) = Some (-3)%Z.
Proof. exists (final "HH"). split; [apply build_final|]. by vm_compute. Qed.

(** "HH" and "PP" build the same dictionary. *)
Example build_HH_PP : ∃ Q, build "HH" = Ok Q ∧ build "PP" = Ok Q.
Proof.
  exists (final "HH"). split; [apply build_final|].
  rewrite build_final. apply (f_equal Ok), map_eq. intros key. reflexivity.
Qed.

(** "HPPH": beads 0 and 3 are both hydrophobic and three apart. *)
Example term1_HPPH :
  ∃ Q, term1 "HPPH" ∅ = Ok Q ∧
       Q !! (var_name 0 0 0, var_name 3 0 1) = Some (-1)%Z ∧
       Q !! (var_name 3 0 1, var_name 0 0 0) = None.
Proof.
  exists (apply_writes (-1) ∅ (writes1 "HPPH")).
  split; [apply term1_trace|]. by vm_compute.
Qed.

(** "HPH": beads 0 and 2 share the even sites of the 2 x 2 grid. *)
Example term3_HPH :
  ∃ Q, term3 "HPH" ∅ = Ok Q ∧ size Q = 2 ∧
       Q !! (var_name 0 0 0, var_name 2 0 0) = Some 10%Z ∧
       Q !! (var_name 0 1 1, var_name 2 1 1) = Some 10%Z.
Proof.
  exists (apply_writes 10 ∅ (writes3 "HPH")).
  split; [apply term3_trace|]. by vm_compute.
Qed.

Example variables_HPH_size :
  size (variables "HPH") = 6 ∧ bead_count "HPH" 0 = 2 ∧ bead_count "HPH" 1 = 2.
Proof. by vm_compute. Qed.

(** A bead with two variables set: the one met last wins. *)
Example positions_last_wins :
  ∃ pos, positions [(var_name 0 0 0, 1%Z); (var_name 0 1 1, 1%Z)] = Ok pos ∧
         pos !! 0 = Some (1, 1).
Proof. exists {[0 := (1, 1)]}. by vm_compute. Qed.
